(** * ECG acquisition pipeline: filter, calibration, lead derivation, scheduler

    A shallow embedding of the dual-input ECG firmware sketch
    (sample scheduler, cascaded biquad filter, auto-calibration, lead
    derivation), of the lead derivation of the JSON sender sketch, of the
    calibration square-wave sketch and of the visualizer (units, fallback
    parse, ring of samples, traces, export).

    Numeric model.  The filter, the calibration and the control loop are
    modelled over exact rationals [Qc]: the statements about them concern the
    formulas the code writes down and the order of the values, which rounding
    keeps.  Where a statement depends on the values themselves (the lead
    derivation, the unit conversion and the sample store of the visualizer)
    the arithmetic is that of the machine: every operation is followed by
    the rounding of its exact result to the nearest number of the format
    ([fl32] for the C [float], [fl64] for the JavaScript number), ties to
    even, with gradual underflow; the statements bound the operands so that
    no operation overflows.  The [unsigned long] clock values are modelled by
    [Z] with the 32-bit wrap-around of the target written out ([u32]).

    Effects.  The sketch keeps its state in globals and in one function-level
    static; [loop] is modelled as a state transformer over the record [State],
    and what the hardware returns during one invocation ([micros], [millis],
    [analogRead]) is the record [Input]. *)

From Stdlib Require Import String.
From Stdlib Require Import ZArith QArith Qcanon List Lia Lqa Bool.
From Stdlib Require Import Qround Qabs Qpower.
From Stdlib Require SpecFloat.
Import ListNotations.

Open Scope Qc_scope.

(* ================================================================== *)
(** * Numbers *)

(** [x < y] on floats, as a boolean. *)
Definition Qcltb (x y : Qc) : bool :=
  match x ?= y with Lt => true | _ => false end.

(** Decimal literals of the source. *)
Definition lit (num : Z) (den : positive) : Qc := Q2Qc (num # den).

(** [(float) n] for an integer [n]. *)
Definition of_int (n : Z) : Qc := Q2Qc (inject_Z n).

(** 32-bit [unsigned long] wrap-around. *)
Definition u32 (z : Z) : Z := (z mod 2 ^ 32)%Z.

(* ================================================================== *)
(** * Generic list access, for [st[ch][i]] *)

Fixpoint upd {A : Type} (l : list A) (i : nat) (v : A) : list A :=
  match l, i with
  | [], _ => []
  | _ :: t, O => v :: t
  | h :: t, S j => h :: upd t j v
  end.

(* ================================================================== *)
(** * User configuration of the sketch *)

Definition SAMPLE_RATE_HZ : Z := 125.
Definition CALIBRATION_TIME_MS : Z := 5000.
Definition MV_PER_UNIT : Qc := lit 1 1.
Definition REF_MV : Qc := lit 1 1.
Definition INVERT_CH1 : bool := false.
Definition INVERT_CH2 : bool := false.

(* ================================================================== *)
(** * Filter: four cascaded biquads, separate state per channel *)

Record Biquad : Type := mkBiquad {
  a1 : Qc; a2 : Qc; b0 : Qc; b1 : Qc; b2 : Qc;
  z1 : Qc; z2 : Qc
}.

(** [processStage(Biquad &s, float in)]: the stage after the call and the
    returned sample. *)
Definition processStage (s : Biquad) (input : Qc) : Biquad * Qc :=
  let x := input - a1 s * z1 s - a2 s * z2 s in
  let out := b0 s * x + b1 s * z1 s + b2 s * z2 s in
  (mkBiquad (a1 s) (a2 s) (b0 s) (b1 s) (b2 s) x (z1 s), out).

(** The global [st[2][4]], indexed [channel][stage]. *)
Definition Bank : Type := list (list Biquad).

Definition get_stage (st : Bank) (ch i : nat) : option Biquad :=
  match nth_error st ch with
  | Some c => nth_error c i
  | None => None
  end.

Definition set_stage (st : Bank) (ch i : nat) (s : Biquad) : Bank :=
  match nth_error st ch with
  | Some c => upd st ch (upd c i s)
  | None => st
  end.

(** One iteration [y = processStage(st[ch][i], y)] of the loop of
    [ECGFilter].  An index outside the array (undefined behaviour in C,
    never reached from [initFilter]) leaves the state and the sample as they
    are. *)
Definition filter_iter (ch : nat) (acc : Bank * Qc) (i : nat) : Bank * Qc :=
  let '(st, y) := acc in
  match get_stage st ch i with
  | Some s => let '(s', out) := processStage s y in (set_stage st ch i s', out)
  | None => (st, y)
  end.

(** [ECGFilter(int ch, float input)]: [for (i = 0; i < 4; i++)]. *)
Definition ECGFilter (ch : nat) (input : Qc) (st : Bank) : Bank * Qc :=
  fold_left (filter_iter ch) (seq 0 4) (st, input).

Definition stage1 : Biquad :=
  mkBiquad (lit 70682283 100000000) (lit 15621030 100000000)
           (lit 28064917 100000000) (lit 56129834 100000000)
           (lit 28064917 100000000) 0 0.
Definition stage2 : Biquad :=
  mkBiquad (lit 95028224 100000000) (lit 54073140 100000000)
           (lit 1 1) (lit 2 1) (lit 1 1) 0 0.
Definition stage3 : Biquad :=
  mkBiquad (lit (-195360385) 100000000) (lit 95423412 100000000)
           (lit 1 1) (lit (-2) 1) (lit 1 1) 0 0.
Definition stage4 : Biquad :=
  mkBiquad (lit (-198048558) 100000000) (lit 98111344 100000000)
           (lit 1 1) (lit (-2) 1) (lit 1 1) 0 0.

(** [initFilter()]: [st[0][k] = st[1][k] = { ... }] for the four stages. *)
Definition initFilter : Bank :=
  [ [stage1; stage2; stage3; stage4];
    [stage1; stage2; stage3; stage4] ].

(* ================================================================== *)
(** * Calibration state *)

Record Calib : Type := mkCalib {
  calibrated : bool;
  calibStartMs : Z;
  min1_ : Qc; max1_ : Qc;
  min2_ : Qc; max2_ : Qc;
  baseline1 : Qc; baseline2 : Qc;
  gain1 : Qc; gain2 : Qc
}.

(** The static initialisers of the calibration globals. *)
Definition calib0 : Calib :=
  mkCalib false 0 (lit 1000000000 1) (lit (-1000000000) 1)
          (lit 1000000000 1) (lit (-1000000000) 1)
          0 0 (lit 1 1) (lit 1 1).

(** [updateCalibration(float f1, float f2)]; [ms] is what [millis()]
    returns when the deadline test reads it. *)
Definition updateCalibration (f1 f2 : Qc) (ms : Z) (c : Calib) : Calib :=
  let mn1 := if Qcltb f1 (min1_ c) then f1 else min1_ c in
  let mx1 := if Qcltb (max1_ c) f1 then f1 else max1_ c in
  let mn2 := if Qcltb f2 (min2_ c) then f2 else min2_ c in
  let mx2 := if Qcltb (max2_ c) f2 then f2 else max2_ c in
  if negb (calibrated c)
     && (CALIBRATION_TIME_MS <=? u32 (u32 ms - calibStartMs c))%Z
  then
    let bl1 := lit 1 2 * (mx1 + mn1) in
    let bl2 := lit 1 2 * (mx2 + mn2) in
    let amp1 := lit 1 2 * (mx1 - mn1) in
    let amp2 := lit 1 2 * (mx2 - mn2) in
    let amp1 := if Qcltb amp1 (lit 1 1) then lit 1 1 else amp1 in
    let amp2 := if Qcltb amp2 (lit 1 1) then lit 1 1 else amp2 in
    mkCalib true (calibStartMs c) mn1 mx1 mn2 mx2 bl1 bl2
            (REF_MV / amp1) (REF_MV / amp2)
  else
    mkCalib (calibrated c) (calibStartMs c) mn1 mx1 mn2 mx2
            (baseline1 c) (baseline2 c) (gain1 c) (gain2 c).

(* ================================================================== *)
(** * Lead derivation *)

(** The six values one JSON line carries. *)
Record LeadRecord : Type := mkLeadRecord {
  lead1 : Qc; lead2 : Qc; lead3 : Qc;
  avr : Qc; avl : Qc; avf : Qc
}.

(** [emitJson(float lead1_mv, float lead2_mv)] of the dual-input sketch:
    the values it prints, before their formatting with three decimals. *)
Definition emitJson (lead1_mv lead2_mv : Qc) : LeadRecord :=
  let lead3_mv := lead2_mv - lead1_mv in
  let ra := 0 in
  let la := lead1_mv in
  let ll := lead2_mv in
  let avr_mv := ra - lit 1 2 * (la + ll) in
  let avl_mv := la - lit 1 2 * (ra + ll) in
  let avf_mv := ll - lit 1 2 * (ra + la) in
  mkLeadRecord lead1_mv lead2_mv lead3_mv avr_mv avl_mv avf_mv.

(** The visualizer's branch [nums.length === 2] of [connect]: the array
    [arr] built from [nums[0]] and [nums[1]]. *)
Definition csv2Derive (n0 n1 : Qc) : list Qc :=
  let l1 := n0 in
  let l2 := n1 in
  let l3 := l2 - l1 in
  let ra := 0 in
  let la := l1 in
  let ll := l2 in
  let r := ra - (la + ll) / lit 2 1 in
  let l := la - (ra + ll) / lit 2 1 in
  let f := ll - (ra + la) / lit 2 1 in
  [l1; l2; l3; r; l; f].

(** A record in the order of the visualizer's [keys]. *)
Definition record_values (r : LeadRecord) : list Qc :=
  [lead1 r; lead2 r; lead3 r; avr r; avl r; avf r].

(* ================================================================== *)
(** * The control loop *)

Record State : Type := mkState {
  st : Bank;
  cal : Calib;
  lastUs : option Z   (* the static of [loop]; [None] before its first call *)
}.

(** What the hardware returns during one invocation of [loop]. *)
Record Input : Type := mkInput {
  us_init : Z;   (* [micros()] in the initialiser of the static [lastUs] *)
  us_now : Z;    (* [micros()] read into [now] *)
  ms_now : Z;    (* [millis()] inside [updateCalibration] *)
  adc1 : Z;      (* [analogRead(INPUT_PIN1)] *)
  adc2 : Z       (* [analogRead(INPUT_PIN2)] *)
}.

(** The locals of one processed tick and the record it emits. *)
Record Tick : Type := mkTick {
  filt1 : Qc; filt2 : Qc;
  cal1 : Qc; cal2 : Qc;
  emitted : LeadRecord
}.

Definition intervalUs : Z := (1000000 / SAMPLE_RATE_HZ)%Z.

(** The value of the static [lastUs] that an invocation works with. *)
Definition deadline_base (inp : Input) (s : State) : Z :=
  match lastUs s with
  | Some l => l
  | None => u32 (us_init inp)
  end.

(** [loop()]. *)
Definition loop (inp : Input) (s : State) : State * option Tick :=
  let last := deadline_base inp s in
  let now := u32 (us_now inp) in
  if (u32 (now - last) <? intervalUs)%Z
  then (mkState (st s) (cal s) (Some last), None)
  else
    let last := u32 (last + intervalUs) in
    let raw1 := of_int (adc1 inp) in
    let raw2 := of_int (adc2 inp) in
    let raw1 := if INVERT_CH1 then - raw1 else raw1 in
    let raw2 := if INVERT_CH2 then - raw2 else raw2 in
    let '(st1, f1) := ECGFilter 0 raw1 (st s) in
    let '(st2, f2) := ECGFilter 1 raw2 st1 in
    let c := updateCalibration f1 f2 (ms_now inp) (cal s) in
    let s1 := if calibrated c then (f1 - baseline1 c) * gain1 c else f1 in
    let s2 := if calibrated c then (f2 - baseline2 c) * gain2 c else f2 in
    let lead1_mv := s1 * MV_PER_UNIT in
    let lead2_mv := s2 * MV_PER_UNIT in
    (mkState st2 c (Some last),
     Some (mkTick f1 f2 s1 s2 (emitJson lead1_mv lead2_mv))).

(** [setup()]: [initFilter(); calibStartMs = millis();]. *)
Definition setup (ms : Z) : State :=
  mkState initFilter
          (mkCalib (calibrated calib0) (u32 ms)
                   (min1_ calib0) (max1_ calib0) (min2_ calib0) (max2_ calib0)
                   (baseline1 calib0) (baseline2 calib0)
                   (gain1 calib0) (gain2 calib0))
          None.

(** Successive invocations of [loop], one per element of [ins]; the result
    lists what each invocation emitted. *)
Fixpoint run (ins : list Input) (s : State) : State * list (option Tick) :=
  match ins with
  | [] => (s, [])
  | inp :: rest =>
      let '(s1, o) := loop inp s in
      let '(s2, os) := run rest s1 in
      (s2, o :: os)
  end.

(** The ticks processed during a run. *)
Fixpoint ticks (os : list (option Tick)) : list Tick :=
  match os with
  | [] => []
  | Some t :: r => t :: ticks r
  | None :: r => ticks r
  end.

(* ================================================================== *)
(** * Auxiliary definitions used by the statements *)

(** The stages of one row run in order, each output feeding the next stage:
    what the loop of [ECGFilter] does to the row [st[ch]]. *)
Fixpoint chain (c : list Biquad) (y : Qc) : list Biquad * Qc :=
  match c with
  | [] => ([], y)
  | s :: rest =>
      let '(s', out) := processStage s y in
      let '(rest', out') := chain rest out in
      (s' :: rest', out')
  end.

(** The locals of a processed tick of [loop], as projections. *)
Definition raw1_of (inp : Input) : Qc :=
  if INVERT_CH1 then - of_int (adc1 inp) else of_int (adc1 inp).
Definition raw2_of (inp : Input) : Qc :=
  if INVERT_CH2 then - of_int (adc2 inp) else of_int (adc2 inp).
Definition f1_of (inp : Input) (s : State) : Qc :=
  snd (ECGFilter 0 (raw1_of inp) (st s)).
Definition st1_of (inp : Input) (s : State) : Bank :=
  fst (ECGFilter 0 (raw1_of inp) (st s)).
Definition f2_of (inp : Input) (s : State) : Qc :=
  snd (ECGFilter 1 (raw2_of inp) (st1_of inp s)).
Definition st2_of (inp : Input) (s : State) : Bank :=
  fst (ECGFilter 1 (raw2_of inp) (st1_of inp s)).
Definition cal_of (inp : Input) (s : State) : Calib :=
  updateCalibration (f1_of inp s) (f2_of inp s) (ms_now inp) (cal s).

(** The locals and the record of the tick that [loop] processes when it
    processes one. *)
Definition tick_of (inp : Input) (s : State) : Tick :=
  let f1 := f1_of inp s in
  let f2 := f2_of inp s in
  let c := cal_of inp s in
  let s1 := if calibrated c then (f1 - baseline1 c) * gain1 c else f1 in
  let s2 := if calibrated c then (f2 - baseline2 c) * gain2 c else f2 in
  mkTick f1 f2 s1 s2 (emitJson (s1 * MV_PER_UNIT) (s2 * MV_PER_UNIT)).

(** The test [(now - lastUs) < intervalUs] of [loop] fails: the tick is
    due. *)
Definition due (inp : Input) (s : State) : bool :=
  negb (u32 (u32 (us_now inp) - deadline_base inp s) <? intervalUs)%Z.

(** The amplitude floor: the literal [1.0f] of [if (amp1 < 1.0f) amp1 = 1.0f]. *)
Definition min_floor : Qc := lit 1 1.

(** The larger of two floats. *)
Definition fmax (a b : Qc) : Qc := if Qcltb b a then a else b.

(** The deadline test [millis() - calibStartMs >= CALIBRATION_TIME_MS]. *)
Definition deadline_reached (ms : Z) (c : Calib) : bool :=
  (CALIBRATION_TIME_MS <=? u32 (u32 ms - calibStartMs c))%Z.



(** One iteration of the loop of [ECGFilter], seen from the row [st[ch]]
    alone ([None]: there is no such row). *)
Definition row_iter (acc : option (list Biquad) * Qc) (i : nat)
  : option (list Biquad) * Qc :=
  match fst acc with
  | Some c =>
      match nth_error c i with
      | Some s =>
          let '(s', out) := processStage s (snd acc) in (Some (upd c i s'), out)
      | None => (Some c, snd acc)
      end
  | None => (None, snd acc)
  end.

(** Two invocations get the same readings, except for the second ADC pin. *)
Definition same_but_adc2 (i i' : Input) : Prop :=
  us_init i = us_init i' /\ us_now i = us_now i' /\
  ms_now i = ms_now i' /\ adc1 i = adc1 i'.

(** Two invocations get the same readings, except for the first ADC pin. *)
Definition same_but_adc1 (i i' : Input) : Prop :=
  us_init i = us_init i' /\ us_now i = us_now i' /\
  ms_now i = ms_now i' /\ adc2 i = adc2 i'.

(** The part of the state that belongs to channel 1 (row 0 of the filter
    bank and the calibration of channel 1) or is shared (the clock values and
    the flag); likewise for channel 2. *)
Definition view1 (s : State) :=
  (nth_error (st s) 0, lastUs s,
   (calibrated (cal s), calibStartMs (cal s)),
   (min1_ (cal s), max1_ (cal s), baseline1 (cal s), gain1 (cal s))).

Definition view2 (s : State) :=
  (nth_error (st s) 1, lastUs s,
   (calibrated (cal s), calibStartMs (cal s)),
   (min2_ (cal s), max2_ (cal s), baseline2 (cal s), gain2 (cal s))).

(** What a tick carries for channel 1, and for channel 2. *)
Definition out1 (t : Tick) : Qc * Qc * Qc := (filt1 t, cal1 t, lead1 (emitted t)).
Definition out2 (t : Tick) : Qc * Qc * Qc := (filt2 t, cal2 t, lead2 (emitted t)).

(** The end-to-end scenario: an identity cascade, that is a bank whose eight
    stages have the pass-through coefficients b0 = 1 and a1 = a2 = b1 = b2 = 0,
    in place of the table of [initFilter]. *)
Definition passStage : Biquad := mkBiquad 0 0 (lit 1 1) 0 0 0 0.

Definition identityBank : Bank :=
  [ [passStage; passStage; passStage; passStage];
    [passStage; passStage; passStage; passStage] ].

Definition setup_identity (ms : Z) : State :=
  mkState identityBank (cal (setup ms)) None.

(** A stage with pass-through coefficients, whatever its state. *)
Definition is_pass (s : Biquad) : Prop :=
  a1 s = 0 /\ a2 s = 0 /\ b0 s = lit 1 1 /\ b1 s = 0 /\ b2 s = 0.

(** Both rows of the bank exist and hold pass-through stages only. *)
Definition pass_bank (b : Bank) : Prop :=
  exists c0 c1, nth_error b 0 = Some c0 /\ nth_error b 1 = Some c1 /\
                Forall is_pass c0 /\ Forall is_pass c1.

(** The scenario's readings: 100 on the first pin, 150 on the second. *)
Definition scenario_input (i : Input) : Prop := adc1 i = 100%Z /\ adc2 i = 150%Z.

(** The calibration state while and after a constant pair of samples
    [(v1, v2)] is observed: each range is still at its sentinels or has
    collapsed to the constant, and a set flag comes with the constants as
    baselines and with the gain of a floored amplitude. *)
Definition flat_cal (v1 v2 : Qc) (c : Calib) : Prop :=
  ((min1_ c = lit 1000000000 1 /\ max1_ c = lit (-1000000000) 1) \/
   (min1_ c = v1 /\ max1_ c = v1)) /\
  ((min2_ c = lit 1000000000 1 /\ max2_ c = lit (-1000000000) 1) \/
   (min2_ c = v2 /\ max2_ c = v2)) /\
  (calibrated c = true ->
   baseline1 c = v1 /\ baseline2 c = v2 /\
   gain1 c = REF_MV / min_floor /\ gain2 c = REF_MV / min_floor).

(** A sample within the sentinels of the running min and max. *)
Definition within_sentinels (v : Qc) : Prop :=
  lit (-1000000000) 1 <= v /\ v <= lit 1000000000 1.

(** Successive calls [updateCalibration(v1, v2)], one per clock reading of
    [mss]. *)
Fixpoint feed_constant (v1 v2 : Qc) (mss : list Z) (c : Calib) : Calib :=
  match mss with
  | [] => c
  | ms :: rest => feed_constant v1 v2 rest (updateCalibration v1 v2 ms c)
  end.

(** A clock that is on time: invocation [k] runs at [k] intervals, that is
    at 8 ms times [k], and reads the scenario's constants. *)
Definition on_time (k : nat) : Input :=
  mkInput 0 (intervalUs * Z.of_nat k) (8 * Z.of_nat k) 100 150.

(** The invariant of the scenario. *)
Definition scenario_state (s : State) : Prop :=
  pass_bank (st s) /\ flat_cal (of_int 100) (of_int 150) (cal s).

Definition zeroRecord : LeadRecord := mkLeadRecord 0 0 0 0 0 0.

(** The clock readings [now] of the invocations of a run that processed a
    tick, in order. *)
Fixpoint sample_times (ins : list Input) (s : State) : list Z :=
  match ins with
  | [] => []
  | i :: rest =>
      if due i s
      then u32 (us_now i) :: sample_times rest (fst (loop i s))
      else sample_times rest (fst (loop i s))
  end.

(** The reading of the scheduler sentence "a missed deadline delays the
    next sample, there is no catch-up burst": when an invocation processes
    its tick a whole interval or more after the deadline of that tick, the
    invocation that follows it, if it processes a tick too, does so at least
    one interval later. *)
Definition delayed_not_burst : Prop :=
  forall (s : State) (i1 i2 : Input),
    (0 <= us_now i1 <= us_now i2)%Z -> (us_now i2 < 2 ^ 32)%Z ->
    due i1 s = true ->
    (2 * intervalUs <= u32 (u32 (us_now i1) - deadline_base i1 s))%Z ->
    due i2 (fst (loop i1 s)) = true ->
    (intervalUs <= us_now i2 - us_now i1)%Z.

(** An invocation that only reads the microsecond clock at [us]. *)
Definition at_us (us : Z) : Input := mkInput 0 us 0 0 0.

(* ================================================================== *)
(** * The observed extremes *)







(* ================================================================== *)
(** * Rounded arithmetic *)

(** [2^q] for an integer exponent. *)
Definition pow2 (q : Z) : Q := Qpower 2 q.

(** The exponent of the leading bit of [x <> 0]: the [e] with
    [2^e <= |x| < 2^(e+1)].  The difference of the bit lengths of numerator
    and denominator is [e] or [e + 1]. *)
Definition ilog2 (x : Q) : Z :=
  let k := (Z.log2 (Z.abs (Qnum x)) - Z.log2 (Zpos (Qden x)))%Z in
  if Qle_bool (pow2 k) (Qabs x) then k else (k - 1)%Z.

(** The integer nearest to [y], the even one of the two when [y] lies half
    way between them. *)
Definition rne (y : Q) : Z :=
  let f := Qfloor y in
  match (y - inject_Z f ?= 1 # 2)%Q with
  | Lt => f
  | Gt => (f + 1)%Z
  | Eq => if Z.even f then f else (f + 1)%Z
  end.

(** Rounding to the nearest number of a binary floating-point format with
    [p] significant bits whose least exponent of the last bit is [emin]
    (ties to even, gradual underflow, no upper limit on the exponent). *)
Definition round_to (p emin : Z) (x : Qc) : Qc :=
  if Qeq_bool x 0 then 0
  else
    let q := Z.max (ilog2 x - (p - 1)) emin in
    Q2Qc (inject_Z (rne (x / pow2 q)) * pow2 q).

(** binary32, the [float] of the sketches, and binary64, the number of
    JavaScript. *)
Definition fl32 : Qc -> Qc := round_to 24 (-149).
Definition fl64 : Qc -> Qc := round_to 53 (-1074).

(** [|x|]. *)
Definition Qc_abs (x : Qc) : Qc := if Qcltb x 0 then - x else x.

(** Half a unit of the last place of binary32: the fraction [2^-24] of the
    number, and [2^-150] in the underflow range. *)
Definition eps32 : Qc := lit 1 (2 ^ 24).
Definition tiny32 : Qc := lit 1 (2 ^ 150).

(** A magnitude up to which sums and halves of two numbers stay below the
    largest binary32 number: [2^126]. *)
Definition finite32 : Qc := lit (2 ^ 126) 1.

(** A binary32 number. *)
Definition representable32 (x : Qc) : Prop := fl32 x = x.

(** [emitJson] in floating-point arithmetic: every operation of the source
    is followed by the rounding [fl] of its result ([fl32] on the sketch's
    target; the identity gives [emitJson] above). *)
Definition emitJson_fl (fl : Qc -> Qc) (lead1_mv lead2_mv : Qc) : LeadRecord :=
  let lead3_mv := fl (lead2_mv - lead1_mv) in
  let ra := 0 in
  let la := lead1_mv in
  let ll := lead2_mv in
  let avr_mv := fl (ra - fl (lit 1 2 * fl (la + ll))) in
  let avl_mv := fl (la - fl (lit 1 2 * fl (ra + ll))) in
  let avf_mv := fl (ll - fl (lit 1 2 * fl (ra + la))) in
  mkLeadRecord lead1_mv lead2_mv lead3_mv avr_mv avl_mv avf_mv.

(** The derivation of the JSON sender sketch (both its simulated and its
    analog branch), from the two leads it has obtained, with the rounding
    [fl] of every operation. *)
Definition senderDerive_fl (fl : Qc -> Qc) (l1 l2 : Qc) : LeadRecord :=
  let l3 := fl (l2 - l1) in
  let la := l1 in
  let ll := l2 in
  let ra := 0 in
  let r := fl (ra - fl (fl (la + ll) / lit 2 1)) in
  let l := fl (la - fl (fl (ra + ll) / lit 2 1)) in
  let f := fl (ll - fl (fl (ra + la) / lit 2 1)) in
  mkLeadRecord l1 l2 l3 r l f.

(** The visualizer's branch [nums.length === 2] of [connect], with the
    rounding [fl] of every operation ([fl64] in JavaScript; the identity
    gives [csv2Derive] above). *)
Definition csv2Derive_fl (fl : Qc -> Qc) (n0 n1 : Qc) : list Qc :=
  let l1 := n0 in
  let l2 := n1 in
  let l3 := fl (l2 - l1) in
  let ra := 0 in
  let la := l1 in
  let ll := l2 in
  let r := fl (ra - fl (fl (la + ll) / lit 2 1)) in
  let l := fl (la - fl (fl (ra + ll) / lit 2 1)) in
  let f := fl (ll - fl (fl (ra + la) / lit 2 1)) in
  [l1; l2; l3; r; l; f].

(** The bound on the rounding error of a derived lead: three roundings. *)
Definition lead_err (l1 l2 : Qc) : Qc :=
  lit 2 1 * eps32 * (Qc_abs l1 + Qc_abs l2) + lit 4 1 * tiny32.

(** The identities read for the values that the sketch emits: for all
    binary32 inputs, lead3 = lead2 - lead1 and aVR + aVL + aVF = 0. *)
Definition identities_exact_in_binary32 : Prop :=
  forall l1 l2 : Qc,
    representable32 l1 -> representable32 l2 ->
    let r := emitJson_fl fl32 l1 l2 in
    lead3 r = l2 - l1 /\ avr r + avl r + avf r = 0.

(** The firmware's binary32 derivation and the visualizer's binary64 one
    read as one function: the same values for the same two leads. *)
Definition same_values_across_precisions : Prop :=
  forall l1 l2 : Qc,
    representable32 l1 -> representable32 l2 ->
    csv2Derive_fl fl64 l1 l2 = record_values (emitJson_fl fl32 l1 l2).

(* ================================================================== *)
(** * The IEEE 754 operations of the standard library, for comparison *)

(** The rational that a finite floating-point number denotes. *)
Definition SF2Q (f : SpecFloat.spec_float) : Q :=
  match f with
  | SpecFloat.S754_finite s m e =>
      (if s then -1 else 1) * inject_Z (Zpos m) * pow2 e
  | _ => 0
  end.

(** The lines of [emitJson] over the binary32 operations of [SpecFloat]:
    lead3, aVR, aVL, aVF. *)
Definition emitJson_ieee (lead1_mv lead2_mv : SpecFloat.spec_float)
  : list SpecFloat.spec_float :=
  let add := SpecFloat.SFadd 24 128 in
  let sub := SpecFloat.SFsub 24 128 in
  let mul := SpecFloat.SFmul 24 128 in
  let half := SpecFloat.S754_finite false (2 ^ 23) (-24) in
  let ra := SpecFloat.S754_zero false in
  let la := lead1_mv in
  let ll := lead2_mv in
  [sub lead2_mv lead1_mv;
   sub ra (mul half (add la ll));
   sub la (mul half (add ra ll));
   sub ll (mul half (add ra la))].

(** The lines of the 2-value CSV path over the binary64 operations of
    [SpecFloat]: lead3, aVR, aVL, aVF. *)
Definition csv2Derive_ieee (n0 n1 : SpecFloat.spec_float)
  : list SpecFloat.spec_float :=
  let add := SpecFloat.SFadd 53 1024 in
  let sub := SpecFloat.SFsub 53 1024 in
  let div := SpecFloat.SFdiv 53 1024 in
  let two := SpecFloat.S754_finite false (2 ^ 52) (-51) in
  let ra := SpecFloat.S754_zero false in
  let la := n0 in
  let ll := n1 in
  [sub n1 n0;
   sub ra (div (add la ll) two);
   sub la (div (add ra ll) two);
   sub ll (div (add ra la) two)].

(* ================================================================== *)
(** * Further definitions: the firmware beyond the calibration transition *)

(** Two stages with the same coefficients; their states may differ. *)
Definition same_coeffs (s s' : Biquad) : Prop :=
  a1 s = a1 s' /\ a2 s = a2 s' /\ b0 s = b0 s' /\ b1 s = b1 s' /\
  b2 s = b2 s'.

(** Two banks with the same rows and, stage by stage, the same coefficients. *)
Definition same_layout (b b' : Bank) : Prop :=
  Forall2 (Forall2 same_coeffs) b b'.

(** The baselines and gains of a calibration state. *)
Definition cal_params (c : Calib) : Qc * Qc * Qc * Qc :=
  (baseline1 c, baseline2 c, gain1 c, gain2 c).

(** The loop is polled at least once per interval: each invocation reads a
    clock value that is not before the previous one, less than one interval
    after it, and below 2^32. *)
Fixpoint polled (prev : Z) (ins : list Input) : Prop :=
  match ins with
  | [] => True
  | i :: rest =>
      (prev <= us_now i < prev + intervalUs)%Z /\ (us_now i < 2 ^ 32)%Z /\
      polled (us_now i) rest
  end.

(** The clock value of the last invocation of a run, [prev] if there is
    none. *)
Definition last_us (prev : Z) (ins : list Input) : Z :=
  last (map us_now ins) prev.

(** The relations among the six values that the lead derivation is meant
    to establish. *)
Definition einthoven (r : LeadRecord) : Prop :=
  lead3 r = lead2 r - lead1 r /\
  lead1 r + lead3 r = lead2 r /\
  avr r + avl r + avf r = 0.

(* ================================================================== *)
(** * The calibration square-wave sketch *)

(** Its two statics: [lastMicros] ([None] before the first call of [loop])
    and [count]. *)
Record SqState : Type := mkSqState {
  sq_lastMicros : option Z;
  sq_count : Z
}.

Definition sq_init : SqState := mkSqState None 0.

(** [(uint32_t)(1000000.0f / SAMPLE_RATE_HZ)] with SAMPLE_RATE_HZ = 125. *)
Definition sq_intervalUs : Z := (1000000 / 125)%Z.

(** [(uint32_t)(SAMPLE_RATE_HZ / 4)]: 31.25 truncated. *)
Definition sq_phase : Z := (125 / 4)%Z.

(** [high] for a value of [count]. *)
Definition sq_high (count : Z) : bool := ((count / sq_phase) mod 2 =? 0)%Z.

(** The values of the JSON line printed for a value of [count]: lead2 is
    printed from the float, the five others are the fixed text 0.000. *)
Definition sq_record (count : Z) : LeadRecord :=
  mkLeadRecord 0 (if sq_high count then lit 1 1 else 0) 0 0 0 0.

(** [loop()] of the square-wave sketch; of the readings it uses the two of
    the microsecond clock. *)
Definition sq_loop (inp : Input) (s : SqState) : SqState * option LeadRecord :=
  let last := match sq_lastMicros s with
              | Some l => l
              | None => u32 (us_init inp)
              end in
  let now := u32 (us_now inp) in
  if (u32 (now - last) <? sq_intervalUs)%Z
  then (mkSqState (Some last) (sq_count s), None)
  else
    let last := u32 (last + sq_intervalUs) in
    let count := u32 (sq_count s + 1) in
    (mkSqState (Some last) count, Some (sq_record count)).

Fixpoint sq_run (ins : list Input) (s : SqState)
  : SqState * list (option LeadRecord) :=
  match ins with
  | [] => (s, [])
  | inp :: rest =>
      let '(s1, o) := sq_loop inp s in
      let '(s2, os) := sq_run rest s1 in
      (s2, o :: os)
  end.

(** The records among the outputs of a run. *)
Fixpoint records (os : list (option LeadRecord)) : list LeadRecord :=
  match os with
  | [] => []
  | Some r :: rest => r :: records rest
  | None :: rest => records rest
  end.

(* ================================================================== *)
(** * The visualizer: units, the fallback parse, the ring of samples *)

(** A JavaScript value, as far as [valueToMv] tells values apart: a finite
    number (the rational it denotes; +0 and -0 are one), an infinity, NaN, or
    a value whose [typeof] is not ['number']. *)
Inductive JSValue : Type :=
| JSNumber (x : Qc)
| JSInfinity (negative : bool)
| JSNaN
| JSNotNumber.

Definition ADC_MAX : Qc := lit 1023 1.
Definition VREF : Qc := lit 5 1.

(** The binary64 number that an arithmetic operation returns when its exact
    result is [x]: the nearest number of the format, an infinity once that
    reaches [2^1024]. *)
Definition js_result (x : Qc) : JSValue :=
  let r := fl64 x in
  if Qcltb (Qc_abs r) (lit (2 ^ 1024) 1) then JSNumber r
  else JSInfinity (Qcltb r 0).

(** [v * c] and [v / c] for a number [v] and a positive finite constant
    [c]: an infinity and NaN stay what they are. *)
Definition js_times (v : JSValue) (c : Qc) : JSValue :=
  match v with
  | JSNumber x => js_result (x * c)
  | _ => v
  end.

Definition js_over (v : JSValue) (c : Qc) : JSValue :=
  match v with
  | JSNumber x => js_result (x / c)
  | _ => v
  end.

(** [valueToMv(v)], with the state [inputUnits] it reads. *)
Definition valueToMv (inputUnits : string) (v : JSValue) : JSValue :=
  match v with
  | JSNotNumber => JSNumber 0
  | JSNaN => JSNumber 0
  | _ =>
      if String.eqb inputUnits "adc"
      then let volts := js_over (js_times v VREF) ADC_MAX in
           js_times volts (lit 1000 1)
      else v
  end.


(** [bufferRef.current] (one array of samples per lead) and
    [writeIndexRef.current]. *)
Record Ring : Type := mkRing {
  buffers : list (list Qc);
  writeIndex : nat
}.

(** [Math.max(1, Math.floor(sampleRate * secondsWindow))]. *)
Definition window_samples (sampleRate secondsWindow : Qc) : nat :=
  Z.to_nat (Z.max 1 (Qfloor (this (sampleRate * secondsWindow)))).

(** The effect that (re)initializes the buffers: one zero-filled array of
    [samples] entries for each of the six leads, and write index 0. *)
Definition init_ring (sampleRate secondsWindow : Qc) : Ring :=
  let samples := window_samples sampleRate secondsWindow in
  mkRing (map (fun _ => repeat 0 samples) (seq 0 6)) 0.

(** [bufferRef.current[0]?.length || fallback]. *)
Definition ring_samples (bufs : list (list Qc)) (fallback : nat) : nat :=
  match bufs with
  | b :: _ => if (List.length b =? 0)%nat then fallback else List.length b
  | [] => fallback
  end.

(** The content of a cell of a [Float32Array] after the store [cell = v]
    of a number [v]: the binary32 number nearest to [v].  Where that is an
    infinity (the nearest number reaches [2^128], or [v] is an infinity) the
    result is [None]: the ring of rationals does not hold it. *)
Definition to_float32 (v : JSValue) : option Qc :=
  match v with
  | JSNumber x =>
      let r := fl32 x in
      if Qcltb (Qc_abs r) (lit (2 ^ 128) 1) then Some r else None
  | _ => None
  end.

(** The loop [for (i = 0; i < arr.length; i++)] of [connect] from index [i]
    on: a missing buffer is created (it is missing only past the end of the
    array, so it is appended), and the converted value is stored at the write
    index, rounded to binary32 by the typed array; a typed array ignores a
    store outside its bounds. *)
Fixpoint write_leads (units : string) (w samples : nat) (i : nat)
         (arr : list JSValue) (bufs : list (list Qc))
  : option (list (list Qc)) :=
  match arr with
  | [] => Some bufs
  | v :: rest =>
      match to_float32 (valueToMv units v) with
      | Some mv =>
          let bufs1 := match nth_error bufs i with
                       | Some _ => bufs
                       | None => bufs ++ [repeat 0 samples]
                       end in
          let bufs2 := match nth_error bufs1 i with
                       | Some b => upd bufs1 i (upd b w mv)
                       | None => bufs1
                       end in
          write_leads units w samples (S i) rest bufs2
      | None => None
      end
  end.

(** What [connect] does with one parsed line [arr]: the stores, then
    [writeIndex = (writeIndex + 1) % samples]. *)
Definition push_sample (units : string) (sampleRate secondsWindow : Qc)
           (arr : list JSValue) (r : Ring) : option Ring :=
  let samples :=
    ring_samples (buffers r) (window_samples sampleRate secondsWindow) in
  option_map (fun bufs => mkRing bufs ((writeIndex r + 1) mod samples))
             (write_leads units (writeIndex r) samples 0 arr (buffers r)).

Fixpoint push_all (units : string) (sampleRate secondsWindow : Qc)
         (arrs : list (list JSValue)) (r : Ring) : option Ring :=
  match arrs with
  | [] => Some r
  | arr :: rest =>
      match push_sample units sampleRate secondsWindow arr r with
      | Some r' => push_all units sampleRate secondsWindow rest r'
      | None => None
      end
  end.

(** The samples of one lead in the order in which [drawLeadTrace] visits
    them: [buffer[leadIdx][(writeIndex + s) % samples] || 0] for
    [s = 0 .. samples-1], with [samples] as [drawAll] passes it; [None] where
    the script would fail on a missing buffer. *)
Definition ring_window (r : Ring) (leadIdx : nat) : option (list Qc) :=
  let samples := ring_samples (buffers r) 1 in
  match nth_error (buffers r) leadIdx with
  | Some b =>
      Some (map (fun s => nth ((writeIndex r + s) mod samples) b 0)
                (seq 0 samples))
  | None => None
  end.

(** The last [n] elements of a list. *)
Definition lastn {A : Type} (n : nat) (l : list A) : list A :=
  skipn (List.length l - n) l.

(** One buffer of [n] samples read from the write index [w] on, wrapping
    around: the order of [ring_window]. *)
Definition ring_read (b : list Qc) (w n : nat) : list Qc :=
  map (fun s => nth ((w + s) mod n) b 0) (seq 0 n).

(** A value that the ring can hold once converted and stored, and what it
    then holds for it. *)
Definition storable (units : string) (v : JSValue) : Prop :=
  to_float32 (valueToMv units v) <> None.

Definition cell (units : string) (v : JSValue) : Qc :=
  match to_float32 (valueToMv units v) with
  | Some x => x
  | None => 0
  end.

(** A parsed line of six storable values. *)
Definition line_ok (units : string) (arr : list JSValue) : Prop :=
  List.length arr = 6%nat /\ Forall (storable units) arr.

(** The cells of lead [k] for a sequence of parsed lines. *)
Definition lead_column (units : string) (k : nat) (arrs : list (list JSValue))
  : list Qc :=
  map (fun arr => cell units (nth k arr JSNaN)) arrs.

(** The ring holds six buffers of [n] samples whose windows are the last
    [n] cells of the lines [h] pushed so far, after [n] zeros. *)
Definition ring_holds (units : string) (n : nat) (h : list (list JSValue))
           (r : Ring) : Prop :=
  List.length (buffers r) = 6%nat /\
  writeIndex r = (List.length h mod n)%nat /\
  forall k, (k < 6)%nat ->
    exists b, nth_error (buffers r) k = Some b /\
              List.length b = n /\
              ring_read b (writeIndex r) n =
                lastn n (repeat 0 n ++ lead_column units k h).

(* ================================================================== *)
(** * The visualizer: the points of the traces *)


(** [(float) n] for a count [n]. *)
Definition of_nat (n : nat) : Qc := of_int (Z.of_nat n).





(* ================================================================== *)
(** * Further definitions: the PNG export *)

(** A canvas of the page, as far as [exportPNG] reads it. *)
Record Canvas : Type := mkCanvas { cv_width : Z; cv_height : Z }.

(** The loop [for (let c of cvsList)] of [exportPNG] from offset [y] on: each
    canvas with the offset at which it is drawn. *)
Fixpoint stack_from (y : Z) (cvs : list Canvas) : list (Canvas * Z) :=
  match cvs with
  | [] => []
  | c :: rest => (c, y) :: stack_from (y + cv_height c)%Z rest
  end.

(** [exportPNG()]: the size of the output canvas and what is drawn on it
    where; [None] when it returns early.  The elements of
    [pairCanvasRefs.current] that are null are [None]. *)
Definition exportPNG (refs : list (option Canvas))
  : option (Z * Z * list (Canvas * Z)) :=
  let cvsList := flat_map (fun o => match o with Some c => [c] | None => [] end)
                          refs in
  match cvsList with
  | [] => None
  | c0 :: _ =>
      let totalW := cv_width c0 in
      let totalH := fold_left (fun s c => (s + cv_height c)%Z) cvsList 0%Z in
      Some (totalW, totalH, stack_from 0 cvsList)
  end.

(* ================================================================== *)
(** * Arithmetic on [Qc] through its embedding in [Q] *)

Section QcToQ.

Lemma this_Q2Qc (q : Q) : (this (Q2Qc q) == q)%Q.
Proof. apply Qred_correct. Qed.

Lemma this_add (x y : Qc) : (this (x + y) == this x + this y)%Q.
Proof. apply Qred_correct. Qed.

Lemma this_mul (x y : Qc) : (this (x * y) == this x * this y)%Q.
Proof. apply Qred_correct. Qed.

Lemma this_opp (x : Qc) : (this (- x) == - this x)%Q.
Proof. apply Qred_correct. Qed.

Lemma this_sub (x y : Qc) : (this (x - y) == this x - this y)%Q.
Proof. unfold Qcminus. rewrite this_add, this_opp. reflexivity. Qed.

Lemma this_inv (x : Qc) : (this (/ x) == / this x)%Q.
Proof. apply Qred_correct. Qed.

Lemma this_div (x y : Qc) : (this (x / y) == this x / this y)%Q.
Proof. unfold Qcdiv. rewrite this_mul, this_inv. reflexivity. Qed.

Lemma this_lit (n : Z) (d : positive) : (this (lit n d) == n # d)%Q.
Proof. apply Qred_correct. Qed.

End QcToQ.

(** Moves a goal about [Qc] (an equation or an order) and the hypotheses
    about [Qc] to [Q], where [lra] and [field] apply. *)
Ltac qc_push :=
  repeat (rewrite ?this_add, ?this_sub, ?this_mul, ?this_opp, ?this_div,
                  ?this_inv, ?this_lit, ?this_Q2Qc in * ).

Ltac qc_to_q :=
  try apply Qc_is_canon;
  unfold Qclt, Qcle in *;
  repeat match goal with
         | H : @eq Qc _ _ |- _ => apply (f_equal this) in H
         end;
  qc_push.

Ltac qc_lra := qc_to_q; lra.

Lemma Qcltb_lt (x y : Qc) : Qcltb x y = true <-> x < y.
Proof.
  unfold Qcltb. split.
  - destruct (x ?= y) eqn:E; try discriminate.
    intros _. now apply (proj2 (Qclt_alt x y)).
  - intro H. apply (proj1 (Qclt_alt x y)) in H. now rewrite H.
Qed.

Lemma Qcltb_ge (x y : Qc) : Qcltb x y = false <-> y <= x.
Proof.
  split.
  - intro H. apply Qcnot_lt_le. intro L. apply Qcltb_lt in L. congruence.
  - intro H. destruct (Qcltb x y) eqn:E; [ | reflexivity ].
    apply Qcltb_lt in E. exfalso. revert E. now apply Qcle_not_lt.
Qed.

(** Case analysis on a float comparison of the code. *)
Ltac case_ltb x y :=
  let E := fresh "E" in
  destruct (Qcltb x y) eqn:E;
  [ apply Qcltb_lt in E | apply Qcltb_ge in E ].

(* ================================================================== *)
(** * The filter cascade *)

Section Cascade.

Lemma nth_error_upd_same {A : Type} (l : list A) (i : nat) (v x : A) :
  nth_error l i = Some x -> nth_error (upd l i v) i = Some v.
Proof.
  revert i. induction l as [ | h t IH ]; intros [ | j ] H; simpl in *;
    try discriminate; auto.
Qed.

Lemma nth_error_upd_other {A : Type} (l : list A) (i j : nat) (v : A) :
  i <> j -> nth_error (upd l i v) j = nth_error l j.
Proof.
  revert i j. induction l as [ | h t IH ]; intros [ | i ] [ | j ] H; simpl;
    try reflexivity; try congruence.
  apply IH. congruence.
Qed.

Lemma upd_upd {A : Type} (l : list A) (i : nat) (v w : A) :
  upd (upd l i v) i w = upd l i w.
Proof.
  revert i. induction l as [ | h t IH ]; intros [ | j ]; simpl;
    try reflexivity.
  now rewrite IH.
Qed.

Lemma upd_id {A : Type} (l : list A) (i : nat) (x : A) :
  nth_error l i = Some x -> upd l i x = l.
Proof.
  revert i. induction l as [ | h t IH ]; intros [ | j ] H; simpl in *;
    try discriminate.
  - congruence.
  - now rewrite IH.
Qed.

Lemma filter_iter_row (ch : nat) (st : Bank) (c : list Biquad) (y : Qc)
      (i : nat) (s : Biquad) :
  nth_error st ch = Some c ->
  nth_error c i = Some s ->
  filter_iter ch (st, y) i =
    (upd st ch (upd c i (fst (processStage s y))), snd (processStage s y)).
Proof.
  intros Hc Hs. unfold filter_iter, get_stage, set_stage.
  rewrite Hc, Hs. destruct (processStage s y) as [s' out]. reflexivity.
Qed.

Lemma nth_error_middle (pre : list Biquad) (s : Biquad) (rest : list Biquad) :
  nth_error (pre ++ s :: rest) (length pre) = Some s.
Proof. induction pre as [ | h t IH ]; simpl; auto. Qed.

Lemma upd_middle (pre : list Biquad) (s s' : Biquad) (rest : list Biquad) :
  upd (pre ++ s :: rest) (length pre) s' = pre ++ s' :: rest.
Proof. induction pre as [ | h t IH ]; simpl; [ | rewrite IH ]; auto. Qed.

(** The loop of [ECGFilter] from index [length pre] on, over a row
    [pre ++ c]: the stages of [pre] are left alone and those of [c] are
    chained. *)
Lemma fold_filter_iter (ch : nat) (c pre : list Biquad) (st : Bank) (y : Qc) :
  nth_error st ch = Some (pre ++ c) ->
  fold_left (filter_iter ch) (seq (length pre) (length c)) (st, y) =
    (upd st ch (pre ++ fst (chain c y)), snd (chain c y)).
Proof.
  revert pre st y. induction c as [ | s rest IH ]; intros pre st y H.
  - simpl. now rewrite (upd_id st ch _ H).
  - cbn [length seq fold_left].
    rewrite (filter_iter_row ch st _ y _ s H (nth_error_middle pre s rest)).
    rewrite upd_middle.
    destruct (processStage s y) as [s' out] eqn:Es. cbn [fst snd].
    pose proof (IH (pre ++ [s']) (upd st ch ((pre ++ [s']) ++ rest)) out) as IH'.
    rewrite length_app, Nat.add_1_r, <- app_assoc in IH'. cbn [app] in IH'.
    refine (eq_trans (IH' (nth_error_upd_same st ch _ _ H)) _).
    rewrite upd_upd. cbn [chain]. rewrite Es.
    destruct (chain rest out) as [rest' out']. cbn [fst snd].
    now rewrite <- app_assoc.
Qed.

(** On a row of exactly four stages, [ECGFilter] is [chain]. *)
Lemma ECGFilter_chain (ch : nat) (st : Bank) (s0 s1 s2 s3 : Biquad)
      (input : Qc) :
  nth_error st ch = Some [s0; s1; s2; s3] ->
  ECGFilter ch input st =
    (upd st ch (fst (chain [s0; s1; s2; s3] input)),
     snd (chain [s0; s1; s2; s3] input)).
Proof.
  intro H. unfold ECGFilter.
  exact (fold_filter_iter ch [s0; s1; s2; s3] [] st input H).
Qed.

End Cascade.

(** C4. A biquad stage with state (z1, z2) computes
    x = in - a1*z1 - a2*z2 and out = b0*x + b1*z1 + b2*z2, keeps its
    coefficients and moves its state to z2' = z1, z1' = x; the filter of a
    channel whose row holds the four stages s0..s3 feeds the input to s0, the
    output of each stage to the next one, returns the output of s3, and
    stores the four updated stages back in the row of that channel. *)
Theorem C4_stage_and_cascade :
  (forall (s : Biquad) (input : Qc),
      let x := input - a1 s * z1 s - a2 s * z2 s in
      snd (processStage s input) = b0 s * x + b1 s * z1 s + b2 s * z2 s /\
      z1 (fst (processStage s input)) = x /\
      z2 (fst (processStage s input)) = z1 s /\
      a1 (fst (processStage s input)) = a1 s /\
      a2 (fst (processStage s input)) = a2 s /\
      b0 (fst (processStage s input)) = b0 s /\
      b1 (fst (processStage s input)) = b1 s /\
      b2 (fst (processStage s input)) = b2 s) /\
  (forall (ch : nat) (st : Bank) (s0 s1 s2 s3 : Biquad) (input : Qc),
      nth_error st ch = Some [s0; s1; s2; s3] ->
      let r0 := processStage s0 input in
      let r1 := processStage s1 (snd r0) in
      let r2 := processStage s2 (snd r1) in
      let r3 := processStage s3 (snd r2) in
      ECGFilter ch input st =
        (upd st ch [fst r0; fst r1; fst r2; fst r3], snd r3)).
Proof.
  split.
  - intros s input. cbn. repeat split; reflexivity.
  - intros ch st s0 s1 s2 s3 input H r0 r1 r2 r3.
    rewrite (ECGFilter_chain ch st s0 s1 s2 s3 input H).
    subst r0 r1 r2 r3. unfold chain.
    destruct (processStage s0 input) as [s0' y0]. simpl fst. simpl snd.
    destruct (processStage s1 y0) as [s1' y1]. simpl fst. simpl snd.
    destruct (processStage s2 y1) as [s2' y2]. simpl fst. simpl snd.
    destruct (processStage s3 y2) as [s3' y3]. reflexivity.
Qed.

Lemma C4_stage_and_cascade_witness :
  nth_error initFilter 1 = Some [stage1; stage2; stage3; stage4] /\
  ECGFilter 1 (of_int 512) initFilter =
    (upd initFilter 1
       [fst (processStage stage1 (of_int 512));
        fst (processStage stage2 (snd (processStage stage1 (of_int 512))));
        fst (processStage stage3
               (snd (processStage stage2
                       (snd (processStage stage1 (of_int 512))))));
        fst (processStage stage4
               (snd (processStage stage3
                       (snd (processStage stage2
                               (snd (processStage stage1 (of_int 512)))))))) ],
     snd (processStage stage4
            (snd (processStage stage3
                    (snd (processStage stage2
                            (snd (processStage stage1 (of_int 512))))))))).
Proof.
  split.
  - reflexivity.
  - exact (proj2 C4_stage_and_cascade 1%nat initFilter
             stage1 stage2 stage3 stage4 (of_int 512) eq_refl).
Defined.

(* ================================================================== *)
(** * Rounding *)

Section Rounding.

Lemma pow2_pos (q : Z) : (0 < pow2 q)%Q.
Proof. unfold pow2. apply Qpower_0_lt. reflexivity. Qed.

Lemma pow2_add (a b : Z) : (pow2 (a + b) == pow2 a * pow2 b)%Q.
Proof. unfold pow2. apply Qpower_plus. discriminate. Qed.

Lemma pow2_Z (n : Z) : (0 <= n)%Z -> (inject_Z (2 ^ n) == pow2 n)%Q.
Proof. intro H. unfold pow2. now rewrite Zpower_Qpower. Qed.

(** The nearest integer is within one half. *)
Lemma rne_err (y : Q) : (Qabs (inject_Z (rne y) - y) <= 1 # 2)%Q.
Proof.
  pose proof (Qfloor_le y) as L. pose proof (Qlt_floor y) as U.
  rewrite inject_Z_plus in U. change (inject_Z 1) with 1%Q in U.
  apply Qabs_Qle_condition. unfold rne.
  destruct (Qcompare_spec (y - inject_Z (Qfloor y)) (1 # 2)) as [E | E | E].
  - destruct (Z.even (Qfloor y)).
    + split; lra.
    + rewrite inject_Z_plus. change (inject_Z 1) with 1%Q. split; lra.
  - split; lra.
  - rewrite inject_Z_plus. change (inject_Z 1) with 1%Q. split; lra.
Qed.

(** The lower half of the specification of [ilog2]. *)
Lemma ilog2_low (x : Q) : ~ (x == 0)%Q -> (pow2 (ilog2 x) <= Qabs x)%Q.
Proof.
  intro N. unfold ilog2.
  set (n := Z.abs (Qnum x)). set (d := Zpos (Qden x)).
  destruct (Qle_bool (pow2 (Z.log2 n - Z.log2 d)) (Qabs x)) eqn:E.
  - now apply Qle_bool_iff.
  - clear E.
    assert (Hn : (0 < n)%Z).
    { subst n. destruct x as [[ | a | a ] b]; cbn; try lia.
      exfalso. apply N. reflexivity. }
    assert (Hd : (0 < d)%Z) by (subst d; lia).
    destruct (Z.log2_spec n Hn) as [Ln _].
    destruct (Z.log2_spec d Hd) as [_ Ud].
    assert (A : (Qabs x == inject_Z n / inject_Z d)%Q).
    { destruct x as [a b]. subst n d. cbn [Qnum Qden].
      rewrite <- Zabs_Qabs. unfold Qeq, Qdiv, Qmult, Qinv, inject_Z. cbn.
      lia. }
    rewrite A.
    replace (Z.log2 n - Z.log2 d - 1)%Z
      with (Z.log2 n + - Z.succ (Z.log2 d))%Z by lia.
    rewrite pow2_add. unfold pow2 at 2. rewrite Qpower_opp.
    fold (pow2 (Z.succ (Z.log2 d))).
    rewrite <- !pow2_Z by (pose proof (Z.log2_nonneg n);
                           pose proof (Z.log2_nonneg d); lia).
    assert (Qn : (inject_Z (2 ^ Z.log2 n) <= inject_Z n)%Q)
      by (rewrite <- Zle_Qle; exact Ln).
    assert (Qd : (inject_Z d < inject_Z (2 ^ Z.succ (Z.log2 d)))%Q)
      by (rewrite <- Zlt_Qlt; exact Ud).
    assert (Pd : (0 < inject_Z d)%Q)
      by (change 0%Q with (inject_Z 0); rewrite <- Zlt_Qlt; exact Hd).
    assert (Pn : (0 < inject_Z (2 ^ Z.log2 n))%Q).
    { change 0%Q with (inject_Z 0). rewrite <- Zlt_Qlt.
      apply Z.pow_pos_nonneg; [ lia | apply Z.log2_nonneg ]. }
    revert Qn Qd Pd Pn.
    generalize (inject_Z (2 ^ Z.log2 n)) (inject_Z n) (inject_Z d)
               (inject_Z (2 ^ Z.succ (Z.log2 d))).
    intros a b c e Qn Qd Pd Pn.
    apply Qle_trans with (a / c)%Q.
    + unfold Qdiv. apply Qmult_le_l; [ exact Pn | ].
      apply Qle_shift_inv_l; [ lra | ].
      setoid_replace (/ e * c)%Q with (c / e)%Q by (field; lra).
      apply Qle_shift_div_r; lra.
    + unfold Qdiv. apply Qmult_le_compat_r; [ exact Qn | ].
      apply Qlt_le_weak, Qinv_lt_0_compat, Pd.
Qed.

(** The error of one rounding: half a unit of the last place, which is at
    most the fraction [2^-p] of the number where the format has [p] bits and
    [2^(emin-1)] in its underflow range. *)
Lemma round_to_err (p emin : Z) (x : Qc) :
  (Qabs (this (round_to p emin x) - this x)
   <= pow2 (- p) * Qabs (this x) + pow2 (emin - 1))%Q.
Proof.
  unfold round_to.
  destruct (Qeq_bool x 0) eqn:Z0.
  - apply Qeq_bool_eq in Z0. rewrite Z0. cbn [this Q2Qc].
    pose proof (pow2_pos (- p)). pose proof (pow2_pos (emin - 1)).
    setoid_replace (0 - 0)%Q with 0%Q by ring.
    change (Qabs 0) with 0%Q. lra.
  - apply Qeq_bool_neq in Z0. cbv zeta.
    set (q := Z.max (ilog2 x - (p - 1)) emin).
    rewrite this_Q2Qc.
    pose proof (pow2_pos q) as Pq.
    pose proof (rne_err (x / pow2 q)) as R.
    assert (E : (inject_Z (rne (x / pow2 q)) * pow2 q - x
                 == (inject_Z (rne (x / pow2 q)) - x / pow2 q) * pow2 q)%Q)
      by (field; lra).
    rewrite E, Qabs_Qmult, (Qabs_pos (pow2 q)) by lra.
    apply Qle_trans with ((1 # 2) * pow2 q)%Q.
    { apply Qmult_le_compat_r; [ exact R | lra ]. }
    assert (H : ((1 # 2) * pow2 q == pow2 (q - 1))%Q).
    { replace (q - 1)%Z with (q + -1)%Z by lia. rewrite pow2_add.
      change (pow2 (-1)) with (1 # 2)%Q. ring. }
    rewrite H.
    pose proof (pow2_pos (- p)). pose proof (pow2_pos (emin - 1)).
    pose proof (Qabs_nonneg x).
    destruct (Z.max_spec (ilog2 x - (p - 1)) emin) as [[_ M] | [_ M]];
      fold q in M; rewrite M.
    + assert (0 <= pow2 (- p) * Qabs x)%Q by (apply Qmult_le_0_compat; lra).
      lra.
    + replace (ilog2 x - (p - 1) - 1)%Z with (- p + ilog2 x)%Z by lia.
      rewrite pow2_add.
      pose proof (ilog2_low x Z0) as L.
      assert (pow2 (- p) * pow2 (ilog2 x) <= pow2 (- p) * Qabs x)%Q
        by (apply Qmult_le_l; lra).
      lra.
Qed.

End Rounding.

Section LeadingBit.

(** The upper half of the specification of [ilog2]. *)
Lemma ilog2_high (x : Q) : ~ (x == 0)%Q -> (Qabs x < pow2 (ilog2 x + 1))%Q.
Proof.
  intro N. unfold ilog2.
  set (n := Z.abs (Qnum x)). set (d := Zpos (Qden x)).
  destruct (Qle_bool (pow2 (Z.log2 n - Z.log2 d)) (Qabs x)) eqn:E.
  - clear E.
    assert (Hn : (0 < n)%Z).
    { subst n. destruct x as [[ | a | a ] b]; cbn; try lia.
      exfalso. apply N. reflexivity. }
    assert (Hd : (0 < d)%Z) by (subst d; lia).
    destruct (Z.log2_spec n Hn) as [_ Un].
    destruct (Z.log2_spec d Hd) as [Ld _].
    assert (A : (Qabs x == inject_Z n / inject_Z d)%Q).
    { destruct x as [a b]. subst n d. cbn [Qnum Qden].
      rewrite <- Zabs_Qabs. unfold Qeq, Qdiv, Qmult, Qinv, inject_Z. cbn.
      lia. }
    rewrite A.
    replace (Z.log2 n - Z.log2 d + 1)%Z
      with (Z.succ (Z.log2 n) + - Z.log2 d)%Z by lia.
    rewrite pow2_add. unfold pow2 at 2. rewrite Qpower_opp.
    fold (pow2 (Z.log2 d)).
    rewrite <- !pow2_Z by (pose proof (Z.log2_nonneg n);
                           pose proof (Z.log2_nonneg d); lia).
    assert (Qn : (inject_Z n < inject_Z (2 ^ Z.succ (Z.log2 n)))%Q)
      by (rewrite <- Zlt_Qlt; exact Un).
    assert (Qd : (inject_Z (2 ^ Z.log2 d) <= inject_Z d)%Q)
      by (rewrite <- Zle_Qle; exact Ld).
    assert (Pd : (0 < inject_Z (2 ^ Z.log2 d))%Q).
    { change 0%Q with (inject_Z 0). rewrite <- Zlt_Qlt.
      apply Z.pow_pos_nonneg; [ lia | apply Z.log2_nonneg ]. }
    assert (Pn : (0 < inject_Z n)%Q)
      by (change 0%Q with (inject_Z 0); rewrite <- Zlt_Qlt; exact Hn).
    revert Qn Qd Pd Pn.
    generalize (inject_Z (2 ^ Z.succ (Z.log2 n))) (inject_Z n) (inject_Z d)
               (inject_Z (2 ^ Z.log2 d)).
    intros a b c e Qn Qd Pd Pn.
    apply Qle_lt_trans with (b / e)%Q.
    + unfold Qdiv. apply Qmult_le_l; [ exact Pn | ].
      apply Qle_shift_inv_l; [ lra | ].
      setoid_replace (/ c * e)%Q with (e / c)%Q by (field; lra).
      apply Qle_shift_div_r; lra.
    + unfold Qdiv. apply Qmult_lt_compat_r; [ | exact Qn ].
      apply Qinv_lt_0_compat, Pd.
  - replace (Z.log2 n - Z.log2 d - 1 + 1)%Z with (Z.log2 n - Z.log2 d)%Z
      by lia.
    apply Qnot_le_lt. intro H. apply Qle_bool_iff in H. congruence.
Qed.

End LeadingBit.

Section NearestInteger.

Lemma rne_comp (y z : Q) : (y == z)%Q -> rne y = rne z.
Proof.
  intro E. unfold rne. rewrite (Qfloor_comp _ _ E).
  assert (C : (y - inject_Z (Qfloor z) ?= 1 # 2)%Q
              = (z - inject_Z (Qfloor z) ?= 1 # 2)%Q)
    by (apply Qcompare_comp; [ now rewrite E | reflexivity ]).
  now rewrite C.
Qed.

(** The nearest integer is the floor or the floor plus one. *)
Lemma rne_floor (y : Q) : rne y = Qfloor y \/ rne y = (Qfloor y + 1)%Z.
Proof.
  unfold rne. destruct (y - inject_Z (Qfloor y) ?= 1 # 2)%Q; auto.
  destruct (Z.even (Qfloor y)); auto.
Qed.

Lemma rne_Z (n : Z) : rne (inject_Z n) = n.
Proof.
  unfold rne. rewrite Qfloor_Z.
  assert (E : (inject_Z n - inject_Z n ?= 1 # 2)%Q = Lt).
  { apply (proj1 (Qlt_alt _ _)). lra. }
  now rewrite E.
Qed.

Lemma rne_mono (y z : Q) : (y <= z)%Q -> (rne y <= rne z)%Z.
Proof.
  intro H. pose proof (Qfloor_resp_le _ _ H) as F.
  destruct (Z.eq_dec (Qfloor y) (Qfloor z)) as [E | N].
  - unfold rne. rewrite <- E.
    destruct (Qcompare_spec (y - inject_Z (Qfloor y)) (1 # 2)) as [A | A | A];
      destruct (Qcompare_spec (z - inject_Z (Qfloor y)) (1 # 2)) as [B | B | B];
      try destruct (Z.even (Qfloor y)); try lia; exfalso; lra.
  - destruct (rne_floor y) as [A | A]; destruct (rne_floor z) as [B | B]; lia.
Qed.

Lemma rne_nonneg (y : Q) : (0 <= y)%Q -> (0 <= rne y)%Z.
Proof.
  intro H. pose proof (rne_mono (inject_Z 0) y H) as M.
  now rewrite rne_Z in M.
Qed.

Lemma rne_nonpos (y : Q) : (y <= 0)%Q -> (rne y <= 0)%Z.
Proof.
  intro H. pose proof (rne_mono y (inject_Z 0) H) as M.
  now rewrite rne_Z in M.
Qed.

End NearestInteger.

Section PositiveRounding.

Variables (p emin : Z).
Hypothesis p_pos : (1 <= p)%Z.

Lemma ilog2_mono (x y : Q) :
  (0 < x)%Q -> (x <= y)%Q -> (ilog2 x <= ilog2 y)%Z.
Proof.
  intros Px H.
  assert (Nx : ~ (x == 0)%Q) by lra.
  assert (Ny : ~ (y == 0)%Q) by lra.
  pose proof (ilog2_low x Nx) as Lx. pose proof (ilog2_high y Ny) as Hy.
  rewrite Qabs_pos in Lx by lra. rewrite Qabs_pos in Hy by lra.
  assert (L : (pow2 (ilog2 x) < pow2 (ilog2 y + 1))%Q) by lra.
  apply Qpower_lt_compat_l_inv in L; [ lia | reflexivity ].
Qed.

(** The scaled value of a multiple of the unit rounds to itself. *)
Lemma scaled_grid (k q : Z) :
  (q <= k)%Z -> rne (pow2 k / pow2 q) = (2 ^ (k - q))%Z.
Proof.
  intro H. rewrite <- (rne_Z (2 ^ (k - q))). apply rne_comp.
  rewrite pow2_Z by lia. unfold pow2. rewrite Qpower_minus by discriminate.
  reflexivity.
Qed.

(** Rounding of positive numbers is monotone. *)
Lemma round_to_mono_pos (x y : Qc) :
  0 < x -> x <= y -> round_to p emin x <= round_to p emin y.
Proof.
  unfold Qclt, Qcle. change (this 0) with 0%Q. intros Px H.
  assert (Py : (0 < y)%Q) by lra.
  unfold round_to.
  destruct (Qeq_bool x 0) eqn:Zx; [ apply Qeq_bool_eq in Zx; lra | ].
  destruct (Qeq_bool y 0) eqn:Zy; [ apply Qeq_bool_eq in Zy; lra | ].
  apply Qeq_bool_neq in Zx. apply Qeq_bool_neq in Zy. cbv zeta.
  pose proof (ilog2_mono x y Px H) as M.
  set (ex := ilog2 x) in *. set (ey := ilog2 y) in *.
  set (qx := Z.max (ex - (p - 1)) emin). set (qy := Z.max (ey - (p - 1)) emin).
  rewrite !this_Q2Qc.
  pose proof (pow2_pos qx) as Pqx. pose proof (pow2_pos qy) as Pqy.
  destruct (Z.eq_dec qx qy) as [E | N].
  - rewrite <- E. apply Qmult_le_compat_r; [ | lra ].
    rewrite <- Zle_Qle. apply rne_mono.
    unfold Qdiv. apply Qmult_le_compat_r; [ exact H | ].
    apply Qlt_le_weak, Qinv_lt_0_compat, Pqx.
  - assert (Qlt' : (qx < qy)%Z) by (subst qx qy; lia).
    assert (Qy : qy = (ey - (p - 1))%Z) by (subst qx qy; lia).
    assert (Ex : (ex + 1 <= ey)%Z) by (subst qx qy; lia).
    (* the common grid point 2^ey *)
    pose proof (ilog2_high x Zx) as Hx. fold ex in Hx.
    pose proof (ilog2_low y Zy) as Ly. fold ey in Ly.
    rewrite Qabs_pos in Hx by lra. rewrite Qabs_pos in Ly by lra.
    assert (B : (pow2 (ex + 1) <= pow2 ey)%Q)
      by (apply Qpower_le_compat_l; [ exact Ex | discriminate ]).
    apply Qle_trans with (pow2 ey).
    + assert (R : (rne (x / pow2 qx) <= 2 ^ (ey - qx))%Z).
      { rewrite <- (scaled_grid ey qx) by lia. apply rne_mono.
        unfold Qdiv. apply Qmult_le_compat_r; [ lra | ].
        apply Qlt_le_weak, Qinv_lt_0_compat, Pqx. }
      rewrite Zle_Qle in R. rewrite pow2_Z in R by lia.
      assert (S : (pow2 ey == pow2 (ey - qx) * pow2 qx)%Q).
      { rewrite <- pow2_add. now replace (ey - qx + qx)%Z with ey by lia. }
      rewrite S. apply Qmult_le_compat_r; [ exact R | lra ].
    + assert (R : (2 ^ (ey - qy) <= rne (y / pow2 qy))%Z).
      { rewrite <- (scaled_grid ey qy) by lia. apply rne_mono.
        unfold Qdiv. apply Qmult_le_compat_r; [ lra | ].
        apply Qlt_le_weak, Qinv_lt_0_compat, Pqy. }
      rewrite Zle_Qle in R. rewrite pow2_Z in R by lia.
      assert (S : (pow2 ey == pow2 (ey - qy) * pow2 qy)%Q).
      { rewrite <- pow2_add. now replace (ey - qy + qy)%Z with ey by lia. }
      rewrite S. apply Qmult_le_compat_r; [ exact R | lra ].
Qed.

End PositiveRounding.

Section Symmetry.

Lemma Qfloor_unique (z : Q) (n : Z) :
  (inject_Z n <= z)%Q -> (z < inject_Z (n + 1))%Q -> Qfloor z = n.
Proof.
  intros L U.
  pose proof (Qfloor_le z) as A. pose proof (Qlt_floor z) as B.
  assert (H1 : (inject_Z n < inject_Z (Qfloor z + 1))%Q) by lra.
  assert (H2 : (inject_Z (Qfloor z) < inject_Z (n + 1))%Q) by lra.
  rewrite <- Zlt_Qlt in H1, H2. lia.
Qed.

(** Rounding to the nearest integer, ties to even, is odd. *)
Lemma rne_opp (y : Q) : rne (- y) = (- rne y)%Z.
Proof.
  pose proof (Qfloor_le y) as L. pose proof (Qlt_floor y) as U.
  rewrite inject_Z_plus in U. change (inject_Z 1) with 1%Q in U.
  destruct (Qeq_dec y (inject_Z (Qfloor y))) as [E | N].
  - rewrite (rne_comp y _ E), rne_Z.
    assert (E' : (- y == inject_Z (- Qfloor y))%Q)
      by (rewrite inject_Z_opp; now rewrite <- E).
    now rewrite (rne_comp _ _ E'), rne_Z.
  - assert (S : (inject_Z (Qfloor y) < y)%Q).
    { apply Qnot_le_lt. intro H. apply N. lra. }
    assert (F : Qfloor (- y) = (- Qfloor y - 1)%Z).
    { apply Qfloor_unique.
      - unfold Z.sub. rewrite inject_Z_plus, inject_Z_opp.
        change (inject_Z (- (1))) with (- (1))%Q. lra.
      - replace (- Qfloor y - 1 + 1)%Z with (- Qfloor y)%Z by lia.
        rewrite inject_Z_opp. lra. }
    unfold rne. rewrite F.
    assert (I : (inject_Z (- Qfloor y - 1) == - inject_Z (Qfloor y) - 1)%Q).
    { unfold Z.sub. rewrite inject_Z_plus, inject_Z_opp.
      change (inject_Z (- (1))) with (- (1))%Q. ring. }
    assert (Ev : Z.even (- Qfloor y - 1) = negb (Z.even (Qfloor y))).
    { replace (- Qfloor y - 1)%Z with (- (Qfloor y + 1))%Z by lia.
      rewrite Z.even_opp. rewrite Z.even_add. cbn.
      now destruct (Z.even (Qfloor y)). }
    rewrite Ev.
    destruct (Qcompare_spec (y - inject_Z (Qfloor y)) (1 # 2)) as [A | A | A];
      destruct (Qcompare_spec (- y - inject_Z (- Qfloor y - 1)) (1 # 2))
        as [B | B | B];
      rewrite I in B;
      try (exfalso; lra);
      try destruct (Z.even (Qfloor y)); cbn [negb]; lia.
Qed.

Lemma ilog2_unique (x : Q) (e : Z) :
  (pow2 e <= Qabs x)%Q -> (Qabs x < pow2 (e + 1))%Q -> ilog2 x = e.
Proof.
  intros L U.
  assert (N : ~ (x == 0)%Q).
  { intro E. rewrite E in L. pose proof (pow2_pos e).
    change (Qabs 0) with 0%Q in L. lra. }
  pose proof (ilog2_low x N) as L'. pose proof (ilog2_high x N) as U'.
  assert (A : (pow2 e < pow2 (ilog2 x + 1))%Q) by lra.
  assert (B : (pow2 (ilog2 x) < pow2 (e + 1))%Q) by lra.
  apply Qpower_lt_compat_l_inv in A; [ | reflexivity ].
  apply Qpower_lt_compat_l_inv in B; [ | reflexivity ].
  lia.
Qed.

Lemma ilog2_comp (x y : Q) : ~ (x == 0)%Q -> (x == y)%Q -> ilog2 y = ilog2 x.
Proof.
  intros N E. apply ilog2_unique; rewrite <- E.
  - now apply ilog2_low.
  - now apply ilog2_high.
Qed.

Lemma ilog2_opp (x : Q) : ~ (x == 0)%Q -> ilog2 (- x) = ilog2 x.
Proof.
  intro N. apply ilog2_unique; rewrite Qabs_opp.
  - now apply ilog2_low.
  - now apply ilog2_high.
Qed.

Lemma round_to_opp (p emin : Z) (x : Qc) :
  round_to p emin (- x) = - round_to p emin x.
Proof.
  apply Qc_is_canon. rewrite this_opp. unfold round_to.
  assert (Z0 : Qeq_bool (- x)%Qc 0 = Qeq_bool x 0).
  { destruct (Qeq_bool x 0) eqn:E.
    - apply Qeq_bool_eq in E. apply Qeq_eq_bool. rewrite this_opp, E.
      reflexivity.
    - apply Qeq_bool_neq in E.
      destruct (Qeq_bool (- x)%Qc 0) eqn:E'; [ | reflexivity ].
      apply Qeq_bool_eq in E'. rewrite this_opp in E'. exfalso. apply E.
      lra. }
  rewrite Z0. destruct (Qeq_bool x 0) eqn:Zx; [ reflexivity | ]. cbv zeta.
  apply Qeq_bool_neq in Zx.
  assert (I : ilog2 (- x)%Qc = ilog2 x).
  { rewrite <- (ilog2_opp x Zx). apply ilog2_comp.
    - intro E. apply Zx. lra.
    - symmetry. apply this_opp. }
  rewrite I. rewrite !this_Q2Qc.
  set (q := Z.max (ilog2 x - (p - 1)) emin).
  assert (S : ((- x)%Qc / pow2 q == - (x / pow2 q))%Q).
  { rewrite this_opp. pose proof (pow2_pos q). field. lra. }
  rewrite (rne_comp _ _ S), rne_opp, inject_Z_opp. ring.
Qed.

End Symmetry.

Section MonotoneRounding.

Variables (p emin : Z).
Hypothesis p_pos : (1 <= p)%Z.

Lemma round_to_nonneg (x : Qc) : 0 <= x -> 0 <= round_to p emin x.
Proof.
  unfold Qcle. change (this 0) with 0%Q. intro H. unfold round_to.
  destruct (Qeq_bool x 0); [ apply Qle_refl | ]. cbv zeta.
  rewrite this_Q2Qc.
  set (q := Z.max (ilog2 x - (p - 1)) emin).
  pose proof (pow2_pos q) as P.
  apply Qmult_le_0_compat; [ | lra ].
  change 0%Q with (inject_Z 0). rewrite <- Zle_Qle. apply rne_nonneg.
  apply Qle_shift_div_l; lra.
Qed.

(** Rounding is monotone. *)
Lemma round_to_mono (x y : Qc) :
  x <= y -> round_to p emin x <= round_to p emin y.
Proof.
  intro H.
  destruct (Qclt_le_dec 0 x) as [Px | Nx].
  - now apply round_to_mono_pos.
  - destruct (Qclt_le_dec y 0) as [Ny | Py].
    + assert (M : round_to p emin (- y) <= round_to p emin (- x)).
      { apply round_to_mono_pos; [ exact p_pos | | ]; qc_lra. }
      rewrite !round_to_opp in M. qc_lra.
    + pose proof (round_to_nonneg y Py) as A.
      assert (B : 0 <= round_to p emin (- x))
        by (apply round_to_nonneg; qc_lra).
      rewrite round_to_opp in B. qc_lra.
Qed.

End MonotoneRounding.

Section Accuracy.

Lemma this_abs (x : Qc) : (this (Qc_abs x) == Qabs (this x))%Q.
Proof.
  unfold Qc_abs. case_ltb x 0; qc_to_q.
  - change (this 0) with 0%Q in E. rewrite Qabs_neg by lra. reflexivity.
  - change (this 0) with 0%Q in E. rewrite Qabs_pos by lra. reflexivity.
Qed.

(** One rounding of binary32, and of binary64, is within
    [eps32 * |x| + tiny32] of [x]. *)
Lemma fl32_err (x : Qc) :
  (Qabs (this (fl32 x) - this x)
   <= (1 # 2 ^ 24) * Qabs (this x) + (1 # 2 ^ 150))%Q.
Proof. exact (round_to_err 24 (-149) x). Qed.

Lemma fl64_err (x : Qc) :
  (Qabs (this (fl64 x) - this x)
   <= (1 # 2 ^ 24) * Qabs (this x) + (1 # 2 ^ 150))%Q.
Proof.
  pose proof (round_to_err 53 (-1074) x) as H. fold fl64 in H.
  pose proof (Qabs_nonneg (this x)) as P.
  eapply Qle_trans; [ exact H | ].
  assert (A : (pow2 (- (53)) <= 1 # 2 ^ 24)%Q) by (vm_compute; discriminate).
  assert (B : (pow2 (-1074 - 1) <= 1 # 2 ^ 150)%Q) by (vm_compute; discriminate).
  assert (C : (pow2 (- (53)) * Qabs (this x) <= (1 # 2 ^ 24) * Qabs (this x))%Q)
    by (apply Qmult_le_compat_r; assumption).
  lra.
Qed.

End Accuracy.

(** Splits on the sign of [z] and replaces [Qabs z] accordingly. *)
Ltac abs_cases z :=
  let H := fresh "S" in
  destruct (Qlt_le_dec z 0) as [H | H];
  [ rewrite (Qabs_neg z) in * by lra | rewrite (Qabs_pos z) in * by lra ].

(** Evaluates the powers written [(a ^ b)%positive] and [(a ^ b)%Z]. *)
Ltac eval_pow :=
  repeat match goal with
         | |- context [Pos.pow ?a ?b] =>
             let c := eval vm_compute in (Pos.pow a b) in
             change (Pos.pow a b) with c in *
         | H : context [Pos.pow ?a ?b] |- _ =>
             let c := eval vm_compute in (Pos.pow a b) in
             change (Pos.pow a b) with c in *
         | |- context [Z.pow ?a ?b] =>
             let c := eval vm_compute in (Z.pow a b) in
             change (Z.pow a b) with c in *
         | H : context [Z.pow ?a ?b] |- _ =>
             let c := eval vm_compute in (Z.pow a b) in
             change (Z.pow a b) with c in *
         end.


Section Derived.

Variable fl : Qc -> Qc.
Hypothesis acc : forall x : Qc,
  (Qabs (this (fl x) - this x)
   <= (1 # 2 ^ 24) * Qabs (this x) + (1 # 2 ^ 150))%Q.

Lemma acc_two_sided (x : Qc) :
  (- ((1 # 2 ^ 24) * Qabs (this x) + (1 # 2 ^ 150)) <= this (fl x) - this x
   <= (1 # 2 ^ 24) * Qabs (this x) + (1 # 2 ^ 150))%Q.
Proof. apply Qabs_Qle_condition, acc. Qed.

(** One rounding. *)
Lemma fl_err (x : Qc) : Qc_abs (fl x - x) <= eps32 * Qc_abs x + tiny32.
Proof.
  unfold Qcle, eps32, tiny32. qc_push. rewrite !this_abs. qc_push.
  apply acc.
Qed.

(** [a - 0.5 * (0 + b)] with its three roundings. *)
Lemma arm_err (a b : Qc) :
  Qc_abs (fl (a - fl (lit 1 2 * fl (0 + b))) - (a - b / lit 2 1))
  <= lead_err a b.
Proof.
  unfold Qcle, lead_err, eps32, tiny32. qc_push. rewrite !this_abs. qc_push.
  pose proof (acc_two_sided (0 + b)) as H1.
  pose proof (acc_two_sided (lit 1 2 * fl (0 + b))) as H2.
  pose proof (acc_two_sided (a - fl (lit 1 2 * fl (0 + b)))) as H3.
  revert H1 H2 H3. qc_push.
  generalize (this (fl (a - fl (lit 1 2 * fl (0 + b))))).
  generalize (this (fl (lit 1 2 * fl (0 + b)))).
  generalize (this (fl (0 + b))).
  change (this 0) with 0%Q.
  generalize (this a) (this b). clear. intros a b t m v H1 H2 H3.
  setoid_replace (b / (2 # 1))%Q with ((1 # 2) * b)%Q by field.
  apply Qabs_Qle_condition. eval_pow.
  abs_cases a; abs_cases b; abs_cases (0 + b)%Q; abs_cases ((1 # 2) * t)%Q;
    abs_cases (a - m)%Q; lra.
Qed.

(** [0 - 0.5 * (a + b)] with its three roundings. *)
Lemma avr_err (a b : Qc) :
  Qc_abs (fl (0 - fl (lit 1 2 * fl (a + b))) - (- (a + b) / lit 2 1))
  <= lead_err a b.
Proof.
  unfold Qcle, lead_err, eps32, tiny32. qc_push. rewrite !this_abs. qc_push.
  pose proof (acc_two_sided (a + b)) as H1.
  pose proof (acc_two_sided (lit 1 2 * fl (a + b))) as H2.
  pose proof (acc_two_sided (0 - fl (lit 1 2 * fl (a + b)))) as H3.
  revert H1 H2 H3. qc_push.
  generalize (this (fl (0 - fl (lit 1 2 * fl (a + b))))).
  generalize (this (fl (lit 1 2 * fl (a + b)))).
  generalize (this (fl (a + b))).
  change (this 0) with 0%Q.
  generalize (this a) (this b). clear. intros a b t m v H1 H2 H3.
  setoid_replace (- (a + b) / (2 # 1))%Q with (- ((1 # 2) * (a + b)))%Q
    by field.
  apply Qabs_Qle_condition. eval_pow.
  abs_cases a; abs_cases b; abs_cases (a + b)%Q; abs_cases ((1 # 2) * t)%Q;
    abs_cases (0 - m)%Q; lra.
Qed.

End Derived.

(* ================================================================== *)
(** * Lead derivation *)

Section Leads.

Lemma half_mul_div2 (x : Qc) : lit 1 2 * x = x / lit 2 1.
Proof. qc_to_q. field. Qed.

(** Without rounding the derivations are those of the exact model. *)
Lemma emitJson_fl_exact (l1 l2 : Qc) :
  emitJson_fl (fun x => x) l1 l2 = emitJson l1 l2.
Proof. reflexivity. Qed.

Lemma csv2Derive_fl_exact (l1 l2 : Qc) :
  csv2Derive_fl (fun x => x) l1 l2 = csv2Derive l1 l2.
Proof. reflexivity. Qed.

(** The three derivations are one function of the two leads and of the
    arithmetic [fl] they are evaluated in. *)
Lemma sender_is_emit (fl : Qc -> Qc) (l1 l2 : Qc) :
  senderDerive_fl fl l1 l2 = emitJson_fl fl l1 l2.
Proof. unfold senderDerive_fl, emitJson_fl. now rewrite <- !half_mul_div2. Qed.

Lemma csv2_is_emit (fl : Qc -> Qc) (l1 l2 : Qc) :
  csv2Derive_fl fl l1 l2 = record_values (emitJson_fl fl l1 l2).
Proof.
  unfold csv2Derive_fl, emitJson_fl, record_values.
  cbn [lead1 lead2 lead3 avr avl avf]. now rewrite <- !half_mul_div2.
Qed.

(** Two values within [e] of a third are within [2 e] of each other. *)
Lemma close_to_same (x y z e : Qc) :
  Qc_abs (x - z) <= e -> Qc_abs (y - z) <= e ->
  Qc_abs (x - y) <= lit 2 1 * e.
Proof.
  unfold Qcle. qc_push. rewrite !this_abs. qc_push.
  generalize (this x) (this y) (this z) (this e). clear.
  intros x y z e H1 H2.
  apply Qabs_Qle_condition in H1. apply Qabs_Qle_condition in H2.
  apply Qabs_Qle_condition. lra.
Qed.

(** Three values, each within [e] of one of three numbers that sum to
    zero, sum to at most [3 e] in magnitude. *)
Lemma sum_of_three (x y z a b c e : Qc) :
  a + b + c = 0 ->
  Qc_abs (x - a) <= e -> Qc_abs (y - b) <= e -> Qc_abs (z - c) <= e ->
  Qc_abs (x + y + z) <= lit 3 1 * e.
Proof.
  intro S.
  assert (S' : (this a + this b + this c == 0)%Q)
    by (rewrite <- !this_add, S; reflexivity).
  clear S. revert S'.
  unfold Qcle. qc_push. rewrite !this_abs. qc_push.
  generalize (this x) (this y) (this z) (this a) (this b) (this c) (this e).
  clear. intros x y z a b c e S H1 H2 H3.
  apply Qabs_Qle_condition in H1. apply Qabs_Qle_condition in H2.
  apply Qabs_Qle_condition in H3. apply Qabs_Qle_condition. lra.
Qed.

Lemma exact_sum_zero (l1 l2 : Qc) :
  - (l1 + l2) / lit 2 1 + (l1 - l2 / lit 2 1) + (l2 - l1 / lit 2 1) = 0.
Proof. qc_to_q. field. Qed.

End Leads.

(** C6. For two leads of magnitude at most 2^126, [emitJson] in binary32
    hands on lead1 and lead2 as they are and emits, for lead3, aVR, aVL and
    aVF, the formulas lead2 - lead1, -(lead1+lead2)/2, lead1 - lead2/2 and
    lead2 - lead1/2 with each operation rounded: lead3 is within half a unit
    of the last place of lead2 - lead1, each augmented lead within
    2^-23 (|lead1| + |lead2|) + 2^-148 of its formula.  So lead1 + lead3 -
    lead2 and aVR + aVL + aVF are zero up to these rounding errors. *)
Theorem C6_lead_identities (l1 l2 : Qc) :
  Qc_abs l1 <= finite32 -> Qc_abs l2 <= finite32 ->
  let r := emitJson_fl fl32 l1 l2 in
  lead1 r = l1 /\ lead2 r = l2 /\
  Qc_abs (lead3 r - (l2 - l1)) <= eps32 * Qc_abs (l2 - l1) + tiny32 /\
  Qc_abs (avr r - (- (l1 + l2) / lit 2 1)) <= lead_err l1 l2 /\
  Qc_abs (avl r - (l1 - l2 / lit 2 1)) <= lead_err l1 l2 /\
  Qc_abs (avf r - (l2 - l1 / lit 2 1)) <= lead_err l1 l2 /\
  Qc_abs (lead1 r + lead3 r - lead2 r)
    <= eps32 * Qc_abs (l2 - l1) + tiny32 /\
  Qc_abs (avr r + avl r + avf r) <= lit 3 1 * lead_err l1 l2.
Proof.
  intros _ _ r. subst r. unfold emitJson_fl.
  cbn [lead1 lead2 lead3 avr avl avf].
  pose proof (fl_err fl32 fl32_err (l2 - l1)) as E3.
  pose proof (avr_err fl32 fl32_err l1 l2) as ER.
  pose proof (arm_err fl32 fl32_err l1 l2) as EL.
  pose proof (arm_err fl32 fl32_err l2 l1) as EF.
  assert (C : lead_err l2 l1 = lead_err l1 l2).
  { unfold lead_err. now rewrite (Qcplus_comm (Qc_abs l2)). }
  rewrite C in EF.
  split; [ reflexivity | ]. split; [ reflexivity | ].
  split; [ exact E3 | ]. split; [ exact ER | ].
  split; [ exact EL | ]. split; [ exact EF | ]. split.
  - replace (l1 + fl32 (l2 - l1) - l2) with (fl32 (l2 - l1) - (l2 - l1))
      by (qc_to_q; ring).
    exact E3.
  - eapply sum_of_three; [ apply exact_sum_zero | eassumption .. ].
Qed.

Lemma C6_lead_identities_witness :
  let l1 := fl32 (lit 1 10) in
  let l2 := fl32 (lit 7 10) in
  let r := emitJson_fl fl32 l1 l2 in
  Qc_abs (avr r + avl r + avf r) <= lit 3 1 * lead_err l1 l2 /\
  avr r + avl r + avf r = lit (-1) (2 ^ 25) /\
  lead1 r + lead3 r - lead2 r = lit (-3) (2 ^ 27).
Proof.
  cbv zeta. split; [ | split ].
  - apply (C6_lead_identities (fl32 (lit 1 10)) (fl32 (lit 7 10)));
      vm_compute; discriminate.
  - apply Qc_is_canon. vm_compute. reflexivity.
  - apply Qc_is_canon. vm_compute. reflexivity.
Defined.

(** The binary32 numbers nearest to 0.1 and 0.7: the emitted aVR, aVL and aVF
    are -13421773/2^25, -1/4 and 5452595/2^23, which sum to -2^-25, and
    lead1 + lead3 falls short of lead2 by 3 * 2^-27. *)
Lemma C6_rounding_counterexample : ~ identities_exact_in_binary32.
Proof.
  intro H.
  destruct (H (fl32 (lit 1 10)) (fl32 (lit 7 10))) as [_ S].
  - apply Qc_is_canon. vm_compute. reflexivity.
  - apply Qc_is_canon. vm_compute. reflexivity.
  - apply (f_equal this) in S. vm_compute in S. discriminate S.
Qed.

Example emitted_for_01_07 :
  map this (record_values (emitJson_fl fl32 (fl32 (lit 1 10)) (fl32 (lit 7 10))))
  = [13421773 # 2 ^ 27; 11744051 # 2 ^ 24; 10066329 # 2 ^ 24;
     - 13421773 # 2 ^ 25; - 1 # 4; 5452595 # 2 ^ 23]%Q.
Proof. vm_compute. reflexivity. Qed.

(** C9. The derivation of the dual-input sketch ([emitJson]), that of the
    JSON sender sketch and that of the visualizer's 2-value CSV path are one
    function of (lead1, lead2) and of the arithmetic they are evaluated in:
    whatever the rounding, they build the same six values, so the two
    sketches, both in binary32, agree.  The visualizer evaluates it in
    binary64: for leads of magnitude at most 2^126 its lead3, aVR, aVL and
    aVF differ from the firmware's by at most twice the binary32 rounding
    error. *)
Theorem C9_derivations_agree :
  (forall (fl : Qc -> Qc) (l1 l2 : Qc),
      senderDerive_fl fl l1 l2 = emitJson_fl fl l1 l2 /\
      csv2Derive_fl fl l1 l2 = record_values (emitJson_fl fl l1 l2) /\
      record_values (senderDerive_fl fl l1 l2) = csv2Derive_fl fl l1 l2) /\
  (forall l1 l2 : Qc,
      Qc_abs l1 <= finite32 -> Qc_abs l2 <= finite32 ->
      let s := emitJson_fl fl32 l1 l2 in
      let v := emitJson_fl fl64 l1 l2 in
      csv2Derive_fl fl64 l1 l2 = record_values v /\
      senderDerive_fl fl32 l1 l2 = s /\
      lead1 v = lead1 s /\ lead2 v = lead2 s /\
      Qc_abs (lead3 v - lead3 s)
        <= lit 2 1 * (eps32 * Qc_abs (l2 - l1) + tiny32) /\
      Qc_abs (avr v - avr s) <= lit 2 1 * lead_err l1 l2 /\
      Qc_abs (avl v - avl s) <= lit 2 1 * lead_err l1 l2 /\
      Qc_abs (avf v - avf s) <= lit 2 1 * lead_err l1 l2).
Proof.
  split.
  - intros fl l1 l2.
    split; [ apply sender_is_emit | ]. split; [ apply csv2_is_emit | ].
    now rewrite sender_is_emit, csv2_is_emit.
  - intros l1 l2 _ _ s v.
    split; [ apply csv2_is_emit | ]. split; [ apply sender_is_emit | ].
    subst s v. unfold emitJson_fl. cbn [lead1 lead2 lead3 avr avl avf].
    assert (C : lead_err l2 l1 = lead_err l1 l2).
    { unfold lead_err. now rewrite (Qcplus_comm (Qc_abs l2)). }
    split; [ reflexivity | ]. split; [ reflexivity | ].
    split; [ | split; [ | split ] ].
    + eapply close_to_same;
        [ apply (fl_err fl64 fl64_err) | apply (fl_err fl32 fl32_err) ].
    + eapply close_to_same;
        [ apply (avr_err fl64 fl64_err) | apply (avr_err fl32 fl32_err) ].
    + eapply close_to_same;
        [ apply (arm_err fl64 fl64_err) | apply (arm_err fl32 fl32_err) ].
    + rewrite <- C. eapply close_to_same;
        [ apply (arm_err fl64 fl64_err) | apply (arm_err fl32 fl32_err) ].
Qed.

Lemma C9_derivations_agree_witness :
  let l1 := fl32 (lit 1 10) in
  let l2 := fl32 (lit 7 10) in
  Qc_abs (avr (emitJson_fl fl64 l1 l2) - avr (emitJson_fl fl32 l1 l2))
    <= lit 2 1 * lead_err l1 l2 /\
  avr (emitJson_fl fl64 l1 l2) - avr (emitJson_fl fl32 l1 l2) = lit 3 (2 ^ 28).
Proof.
  cbv zeta. split.
  - apply (proj2 C9_derivations_agree (fl32 (lit 1 10)) (fl32 (lit 7 10)));
      vm_compute; discriminate.
  - apply Qc_is_canon. vm_compute. reflexivity.
Defined.

(** On the binary32 numbers nearest to 0.1 and 0.7 the firmware's aVR is
    -13421773/2^25 and the visualizer's is -107374181/2^28. *)
Lemma C9_precision_counterexample : ~ same_values_across_precisions.
Proof.
  intro H.
  specialize (H (fl32 (lit 1 10)) (fl32 (lit 7 10))).
  assert (E : csv2Derive_fl fl64 (fl32 (lit 1 10)) (fl32 (lit 7 10)) =
              record_values (emitJson_fl fl32 (fl32 (lit 1 10))
                                         (fl32 (lit 7 10)))).
  { apply H; apply Qc_is_canon; vm_compute; reflexivity. }
  apply (f_equal (fun l => this (nth 3 l 0))) in E.
  vm_compute in E. discriminate E.
Qed.

(** On the binary32 numbers nearest to 0.1 and 0.7 the rounded model gives
    the values that the IEEE 754 operations of the standard library give,
    in binary32 for [emitJson] and in binary64 (on the same two numbers) for
    the CSV path. *)
Example rounded_model_is_ieee :
  let a := SpecFloat.S754_finite false 13421773 (-27) in
  let b := SpecFloat.S754_finite false 11744051 (-24) in
  Qred (SF2Q a) = this (fl32 (lit 1 10)) /\
  Qred (SF2Q b) = this (fl32 (lit 7 10)) /\
  map (fun f => Qred (SF2Q f)) (emitJson_ieee a b)
  = map this (skipn 2 (record_values
                         (emitJson_fl fl32 (fl32 (lit 1 10))
                                      (fl32 (lit 7 10))))) /\
  map (fun f => Qred (SF2Q f)) (csv2Derive_ieee a b)
  = map this (skipn 2 (csv2Derive_fl fl64 (fl32 (lit 1 10))
                                     (fl32 (lit 7 10)))).
Proof. repeat split; vm_compute; reflexivity. Qed.

(* ================================================================== *)
(** * One invocation of [loop], case by case *)

Section LoopCases.

Variables (inp : Input) (s : State).

Lemma loop_not_due :
  due inp s = false ->
  loop inp s = (mkState (st s) (cal s) (Some (deadline_base inp s)), None).
Proof.
  unfold due, loop. intro H. apply negb_false_iff in H. now rewrite H.
Qed.

Lemma loop_due :
  due inp s = true ->
  loop inp s =
    (mkState (st2_of inp s) (cal_of inp s)
             (Some (u32 (deadline_base inp s + intervalUs))),
     Some (tick_of inp s)).
Proof.
  unfold due, loop. intro H. apply negb_true_iff in H. rewrite H.
  unfold tick_of, cal_of, f2_of, st2_of, f1_of, st1_of, raw1_of, raw2_of.
  cbv beta iota zeta delta [INVERT_CH1 INVERT_CH2].
  destruct (ECGFilter 0 (of_int (adc1 inp)) (st s)) as [b1' y1].
  cbn [fst snd].
  destruct (ECGFilter 1 (of_int (adc2 inp)) b1') as [b2' y2].
  reflexivity.
Qed.

End LoopCases.

(* ================================================================== *)
(** * Runs *)

Section Runs.

Lemma run_app (ins1 ins2 : list Input) (s : State) :
  run (ins1 ++ ins2) s =
    (fst (run ins2 (fst (run ins1 s))),
     snd (run ins1 s) ++ snd (run ins2 (fst (run ins1 s)))).
Proof.
  revert s. induction ins1 as [ | i rest IH ]; intro s.
  - simpl. now destruct (run ins2 s).
  - cbn [run app]. destruct (loop i s) as [s1 o].
    rewrite IH. destruct (run rest s1) as [s2 os]. reflexivity.
Qed.

Lemma run_cons (i : Input) (rest : list Input) (s : State) :
  run (i :: rest) s =
    (fst (run rest (fst (loop i s))),
     snd (loop i s) :: snd (run rest (fst (loop i s)))).
Proof.
  cbn [run]. destruct (loop i s) as [s1 o]. cbn [fst snd].
  now destruct (run rest s1).
Qed.

(** A property of states kept by every invocation is kept by every run. *)
Lemma run_invariant (P : State -> Prop) :
  (forall inp s, P s -> P (fst (loop inp s))) ->
  forall ins s, P s -> P (fst (run ins s)).
Proof.
  intros Hstep ins. induction ins as [ | i rest IH ]; intros s Hs.
  - exact Hs.
  - rewrite run_cons. cbn [fst]. apply IH, Hstep, Hs.
Qed.

End Runs.

(* ================================================================== *)
(** * Calibration *)

Section Calibration.

Variables (f1 f2 : Qc) (ms : Z) (c : Calib).

Lemma uc_min1 :
  min1_ (updateCalibration f1 f2 ms c) =
    if Qcltb f1 (min1_ c) then f1 else min1_ c.
Proof. unfold updateCalibration. now destruct (negb _ && _). Qed.

Lemma uc_max1 :
  max1_ (updateCalibration f1 f2 ms c) =
    if Qcltb (max1_ c) f1 then f1 else max1_ c.
Proof. unfold updateCalibration. now destruct (negb _ && _). Qed.

Lemma uc_min2 :
  min2_ (updateCalibration f1 f2 ms c) =
    if Qcltb f2 (min2_ c) then f2 else min2_ c.
Proof. unfold updateCalibration. now destruct (negb _ && _). Qed.

Lemma uc_max2 :
  max2_ (updateCalibration f1 f2 ms c) =
    if Qcltb (max2_ c) f2 then f2 else max2_ c.
Proof. unfold updateCalibration. now destruct (negb _ && _). Qed.

Lemma uc_calibrated :
  calibrated (updateCalibration f1 f2 ms c) =
    calibrated c || deadline_reached ms c.
Proof.
  unfold updateCalibration, deadline_reached.
  destruct (calibrated c); cbn [negb andb orb]; [ reflexivity | ].
  now destruct (_ <=? _)%Z.
Qed.

(** Once the flag is set, a call changes neither the flag nor baseline and
    gain. *)
Lemma uc_frozen :
  calibrated c = true ->
  calibrated (updateCalibration f1 f2 ms c) = true /\
  baseline1 (updateCalibration f1 f2 ms c) = baseline1 c /\
  baseline2 (updateCalibration f1 f2 ms c) = baseline2 c /\
  gain1 (updateCalibration f1 f2 ms c) = gain1 c /\
  gain2 (updateCalibration f1 f2 ms c) = gain2 c.
Proof.
  intro H. unfold updateCalibration. rewrite H. cbn [negb andb].
  cbn [calibrated baseline1 baseline2 gain1 gain2]. auto.
Qed.



End Calibration.

Section Gain.



Lemma gain_flat (x : Qc) :
  REF_MV / fmax min_floor (lit 1 2 * (x - x)) = REF_MV / min_floor.
Proof.
  assert (E : lit 1 2 * (x - x) = 0) by qc_lra.
  rewrite E. reflexivity.
Qed.

End Gain.

(** The calibration state that the call which sets the flag leaves behind,
    written over the ranges it has just updated. *)
Lemma transition_fields (f1 f2 : Qc) (ms : Z) (c : Calib) :
  calibrated c = false ->
  calibrated (updateCalibration f1 f2 ms c) = true ->
  let c' := updateCalibration f1 f2 ms c in
  c' = mkCalib true (calibStartMs c)
         (min1_ c') (max1_ c') (min2_ c') (max2_ c')
         (lit 1 2 * (max1_ c' + min1_ c'))
         (lit 1 2 * (max2_ c' + min2_ c'))
         (REF_MV / fmax min_floor (lit 1 2 * (max1_ c' - min1_ c')))
         (REF_MV / fmax min_floor (lit 1 2 * (max2_ c' - min2_ c'))).
Proof.
  intros Hc Hc' c'.
  assert (Hd : deadline_reached ms c = true).
  { rewrite uc_calibrated, Hc in Hc'. exact Hc'. }
  subst c'. rewrite uc_min1, uc_max1, uc_min2, uc_max2.
  unfold updateCalibration. unfold deadline_reached in Hd.
  rewrite Hc, Hd. reflexivity.
Qed.

Section Flat.

Variables (v1 v2 : Qc).
Hypothesis (V1 : within_sentinels v1) (V2 : within_sentinels v2).

Lemma collapse_min (v m : Qc) :
  within_sentinels v -> m = lit 1000000000 1 \/ m = v ->
  (if Qcltb v m then v else m) = v.
Proof.
  intros [_ Hi] [ -> | -> ].
  - case_ltb v (lit 1000000000 1); [ reflexivity | ].
    apply Qcle_antisym; assumption.
  - case_ltb v v; reflexivity.
Qed.

Lemma collapse_max (v m : Qc) :
  within_sentinels v -> m = lit (-1000000000) 1 \/ m = v ->
  (if Qcltb m v then v else m) = v.
Proof.
  intros [Lo _] [ -> | -> ].
  - case_ltb (lit (-1000000000) 1) v; [ reflexivity | ].
    apply Qcle_antisym; assumption.
  - case_ltb v v; reflexivity.
Qed.

Lemma half_double (v : Qc) : lit 1 2 * (v + v) = v.
Proof. qc_lra. Qed.

(** Observing the constants keeps [flat_cal] and collapses both ranges to
    the constants. *)
Lemma uc_flat (ms : Z) (c : Calib) :
  flat_cal v1 v2 c ->
  let c' := updateCalibration v1 v2 ms c in
  flat_cal v1 v2 c' /\
  min1_ c' = v1 /\ max1_ c' = v1 /\ min2_ c' = v2 /\ max2_ c' = v2.
Proof.
  intros (R1 & R2 & F) c'.
  assert (M1 : min1_ c' = v1).
  { subst c'. rewrite uc_min1. apply collapse_min; [ exact V1 | ].
    destruct R1 as [[E _] | [E _]]; auto. }
  assert (X1 : max1_ c' = v1).
  { subst c'. rewrite uc_max1. apply collapse_max; [ exact V1 | ].
    destruct R1 as [[_ E] | [_ E]]; auto. }
  assert (M2 : min2_ c' = v2).
  { subst c'. rewrite uc_min2. apply collapse_min; [ exact V2 | ].
    destruct R2 as [[E _] | [E _]]; auto. }
  assert (X2 : max2_ c' = v2).
  { subst c'. rewrite uc_max2. apply collapse_max; [ exact V2 | ].
    destruct R2 as [[_ E] | [_ E]]; auto. }
  split; [ | auto ].
  split; [ now right | ]. split; [ now right | ].
  intro T. destruct (calibrated c) eqn:Ec.
  - destruct (uc_frozen v1 v2 ms c Ec) as (_ & B1 & B2 & G1 & G2).
    fold c' in B1, B2, G1, G2. rewrite B1, B2, G1, G2. now apply F.
  - pose proof (transition_fields v1 v2 ms c Ec T) as E.
    cbv zeta in E. fold c' in E. rewrite M1, X1, M2, X2 in E. rewrite E.
    cbn [baseline1 baseline2 gain1 gain2].
    split; [ apply half_double | ]. split; [ apply half_double | ].
    split; apply gain_flat.
Qed.

Lemma feed_constant_flat (mss : list Z) (c : Calib) :
  flat_cal v1 v2 c -> flat_cal v1 v2 (feed_constant v1 v2 mss c).
Proof.
  revert c. induction mss as [ | ms rest IH ]; intros c H.
  - exact H.
  - cbn [feed_constant]. apply IH. now apply uc_flat.
Qed.

End Flat.

Lemma calib_start_flat (v1 v2 : Qc) (start : Z) :
  flat_cal v1 v2
    (mkCalib false start (min1_ calib0) (max1_ calib0)
             (min2_ calib0) (max2_ calib0)
             (baseline1 calib0) (baseline2 calib0)
             (gain1 calib0) (gain2 calib0)).
Proof.
  split; [ left; split; reflexivity | ].
  split; [ left; split; reflexivity | discriminate ].
Qed.

(* ================================================================== *)
(** * The calibration flag along a run *)

Section Flag.

Lemma loop_cal (inp : Input) (s : State) :
  cal (fst (loop inp s)) = if due inp s then cal_of inp s else cal s.
Proof.
  destruct (due inp s) eqn:D.
  - now rewrite (loop_due inp s D).
  - now rewrite (loop_not_due inp s D).
Qed.

Lemma loop_keeps_flag (inp : Input) (s : State) :
  calibrated (cal s) = true -> calibrated (cal (fst (loop inp s))) = true.
Proof.
  intro H. rewrite loop_cal. destruct (due inp s); [ | exact H ].
  unfold cal_of. now apply uc_frozen.
Qed.

Lemma run_keeps_flag (ins : list Input) (s : State) :
  calibrated (cal s) = true -> calibrated (cal (fst (run ins s))) = true.
Proof.
  revert s.
  apply (run_invariant (fun s => calibrated (cal s) = true)).
  intros inp s. apply loop_keeps_flag.
Qed.


End Flag.

(* ================================================================== *)
(** * The recorded range is the observed range *)

Section Observed.













End Observed.




Example flat_beyond_sentinel :
  let c := feed_constant (lit 3000000000 1) 0 [5000%Z] (cal (setup 0)) in
  calibrated c = true /\
  min1_ c = lit 1000000000 1 /\ max1_ c = lit 3000000000 1 /\
  baseline1 c = lit 2000000000 1 /\ gain1 c = lit 1 1000000000.
Proof. repeat split; apply Qc_is_canon; reflexivity. Qed.

(** C2. For a processed tick with filtered samples f1 and f2, the values
    handed to the lead derivation are f1 and f2 themselves as long as the
    flag is still clear after the tick's calibration update, and
    (f - baseline) * gain of the channel once the flag is set; a tick that
    starts with the flag set ends with it set and uses the baseline and gain
    it started with.  The emitted lead1 and lead2 are these values times
    MV_PER_UNIT. *)
Theorem C2_apply_calibration (inp : Input) (s s' : State) (t : Tick) :
  loop inp s = (s', Some t) ->
  (calibrated (cal s') = false ->
     cal1 t = filt1 t /\ cal2 t = filt2 t) /\
  (calibrated (cal s') = true ->
     cal1 t = (filt1 t - baseline1 (cal s')) * gain1 (cal s') /\
     cal2 t = (filt2 t - baseline2 (cal s')) * gain2 (cal s')) /\
  (calibrated (cal s) = true ->
     calibrated (cal s') = true /\
     cal1 t = (filt1 t - baseline1 (cal s)) * gain1 (cal s) /\
     cal2 t = (filt2 t - baseline2 (cal s)) * gain2 (cal s)) /\
  lead1 (emitted t) = cal1 t * MV_PER_UNIT /\
  lead2 (emitted t) = cal2 t * MV_PER_UNIT.
Proof.
  intro H. destruct (due inp s) eqn:D.
  2:{ rewrite (loop_not_due inp s D) in H. discriminate H. }
  rewrite (loop_due inp s D) in H. injection H as Hs Ht. subst s' t.
  cbn [cal]. unfold tick_of. cbn [cal1 cal2 filt1 filt2 emitted].
  split; [ | split; [ | split; [ | split ] ] ].
  - intro F. rewrite F. split; reflexivity.
  - intro F. rewrite F. split; reflexivity.
  - intro F. unfold cal_of.
    destruct (uc_frozen (f1_of inp s) (f2_of inp s) (ms_now inp) (cal s) F)
      as (E & B1 & B2 & G1 & G2).
    rewrite E, B1, B2, G1, G2. repeat split.
  - reflexivity.
  - reflexivity.
Qed.

Lemma C2_apply_calibration_witness :
  exists s' t,
    loop (mkInput 0 8000 5000 100 150) (setup 0) = (s', Some t) /\
    calibrated (cal s') = true /\
    cal1 t = (filt1 t - baseline1 (cal s')) * gain1 (cal s').
Proof.
  eexists. eexists.
  assert (L : loop (mkInput 0 8000 5000 100 150) (setup 0) =
              (fst (loop (mkInput 0 8000 5000 100 150) (setup 0)),
               Some (tick_of (mkInput 0 8000 5000 100 150) (setup 0)))).
  { rewrite (loop_due _ _ (eq_refl : due (mkInput 0 8000 5000 100 150)
                                         (setup 0) = true)).
    reflexivity. }
  split; [ exact L | ].
  split.
  - vm_compute. reflexivity.
  - destruct (C2_apply_calibration _ _ _ _ L) as (_ & A & _).
    apply A. vm_compute. reflexivity.
Defined.

(** C3. Once the flag is set at some point of a run, it is set after every
    continuation of that run. *)
Theorem C3_calibrated_one_shot (ins1 ins2 : list Input) (s : State) :
  calibrated (cal (fst (run ins1 s))) = true ->
  calibrated (cal (fst (run (ins1 ++ ins2) s))) = true.
Proof.
  intro H. rewrite run_app. cbn [fst]. now apply run_keeps_flag.
Qed.

Lemma C3_calibrated_one_shot_witness :
  calibrated
    (cal (fst (run ([mkInput 0 8000 5000 100 150]
                    ++ [mkInput 0 16000 5008 101 149;
                        mkInput 0 16500 5008 0 0;
                        mkInput 0 24000 5016 1023 0])
                   (setup 0)))) = true.
Proof.
  apply C3_calibrated_one_shot. vm_compute. reflexivity.
Defined.

(* ================================================================== *)
(** * The recorded ranges along a run *)

Section Ranges.









End Ranges.



(* ================================================================== *)
(** * Independence of the two channels *)

Section Independence.

Lemma filter_iter_view (ch : nat) (st : Bank) (y : Qc) (i : nat) :
  (nth_error (fst (filter_iter ch (st, y) i)) ch,
   snd (filter_iter ch (st, y) i)) = row_iter (nth_error st ch, y) i.
Proof.
  unfold filter_iter, get_stage, set_stage, row_iter. cbn [fst snd].
  destruct (nth_error st ch) as [ c | ] eqn:Ec;
    [ | cbn [fst snd]; now rewrite Ec ].
  destruct (nth_error c i) as [ s | ]; [ | cbn [fst snd]; now rewrite Ec ].
  destruct (processStage s y) as [s' out]. cbn [fst snd].
  now rewrite (nth_error_upd_same st ch _ _ Ec).
Qed.

Lemma filter_iter_other (ch ch' : nat) (st : Bank) (y : Qc) (i : nat) :
  ch <> ch' ->
  nth_error (fst (filter_iter ch (st, y) i)) ch' = nth_error st ch'.
Proof.
  intro N. unfold filter_iter, get_stage, set_stage.
  destruct (nth_error st ch) as [ c | ]; [ | reflexivity ].
  destruct (nth_error c i) as [ s | ]; [ | reflexivity ].
  destruct (processStage s y) as [s' out]. cbn [fst].
  now apply nth_error_upd_other.
Qed.

Lemma fold_view (ch : nat) (idx : list nat) (st : Bank) (y : Qc) :
  (nth_error (fst (fold_left (filter_iter ch) idx (st, y))) ch,
   snd (fold_left (filter_iter ch) idx (st, y))) =
    fold_left row_iter idx (nth_error st ch, y).
Proof.
  revert st y. induction idx as [ | i rest IH ]; intros st y.
  - reflexivity.
  - cbn [fold_left]. rewrite <- filter_iter_view.
    destruct (filter_iter ch (st, y) i) as [st' y']. apply IH.
Qed.

Lemma fold_other (ch ch' : nat) (idx : list nat) (st : Bank) (y : Qc) :
  ch <> ch' ->
  nth_error (fst (fold_left (filter_iter ch) idx (st, y))) ch' =
    nth_error st ch'.
Proof.
  intro N. revert st y. induction idx as [ | i rest IH ]; intros st y.
  - reflexivity.
  - cbn [fold_left].
    destruct (filter_iter ch (st, y) i) as [st' y'] eqn:E.
    rewrite IH. replace st' with (fst (filter_iter ch (st, y) i))
      by now rewrite E.
    now apply filter_iter_other.
Qed.

(** The output of [ECGFilter ch] and the row [ch] it leaves depend on the
    bank through the row [ch] alone. *)
Lemma ECGFilter_view (ch : nat) (x : Qc) (st : Bank) :
  (nth_error (fst (ECGFilter ch x st)) ch, snd (ECGFilter ch x st)) =
    fold_left row_iter (seq 0 4) (nth_error st ch, x).
Proof. apply fold_view. Qed.

(** [ECGFilter ch] leaves the rows of the other channels as they are. *)
Lemma ECGFilter_other (ch ch' : nat) (x : Qc) (st : Bank) :
  ch <> ch' -> nth_error (fst (ECGFilter ch x st)) ch' = nth_error st ch'.
Proof. apply fold_other. Qed.

Lemma ECGFilter_same_row (ch : nat) (x : Qc) (st st' : Bank) :
  nth_error st ch = nth_error st' ch ->
  nth_error (fst (ECGFilter ch x st)) ch =
    nth_error (fst (ECGFilter ch x st')) ch /\
  snd (ECGFilter ch x st) = snd (ECGFilter ch x st').
Proof.
  intro H.
  pose proof (ECGFilter_view ch x st) as V.
  pose proof (ECGFilter_view ch x st') as V'.
  rewrite H in V. rewrite <- V' in V. now inversion V.
Qed.

Lemma uc_view1 (f1 f2 f2' : Qc) (ms : Z) (c c' : Calib) :
  calibrated c = calibrated c' -> calibStartMs c = calibStartMs c' ->
  min1_ c = min1_ c' -> max1_ c = max1_ c' ->
  baseline1 c = baseline1 c' -> gain1 c = gain1 c' ->
  let u := updateCalibration f1 f2 ms c in
  let u' := updateCalibration f1 f2' ms c' in
  calibrated u = calibrated u' /\ calibStartMs u = calibStartMs u' /\
  min1_ u = min1_ u' /\ max1_ u = max1_ u' /\
  baseline1 u = baseline1 u' /\ gain1 u = gain1 u'.
Proof.
  intros H1 H2 H3 H4 H5 H6. unfold updateCalibration.
  rewrite H1, H2, H3, H4, H5, H6.
  destruct (negb (calibrated c') && _);
    cbn [calibrated calibStartMs min1_ max1_ baseline1 gain1];
    repeat split.
Qed.

Lemma uc_view2 (f1 f1' f2 : Qc) (ms : Z) (c c' : Calib) :
  calibrated c = calibrated c' -> calibStartMs c = calibStartMs c' ->
  min2_ c = min2_ c' -> max2_ c = max2_ c' ->
  baseline2 c = baseline2 c' -> gain2 c = gain2 c' ->
  let u := updateCalibration f1 f2 ms c in
  let u' := updateCalibration f1' f2 ms c' in
  calibrated u = calibrated u' /\ calibStartMs u = calibStartMs u' /\
  min2_ u = min2_ u' /\ max2_ u = max2_ u' /\
  baseline2 u = baseline2 u' /\ gain2 u = gain2 u'.
Proof.
  intros H1 H2 H3 H4 H5 H6. unfold updateCalibration.
  rewrite H1, H2, H3, H4, H5, H6.
  destruct (negb (calibrated c') && _);
    cbn [calibrated calibStartMs min2_ max2_ baseline2 gain2];
    repeat split.
Qed.

Lemma due_same (i i' : Input) (s s' : State) :
  us_init i = us_init i' -> us_now i = us_now i' -> lastUs s = lastUs s' ->
  due i s = due i' s' /\ deadline_base i s = deadline_base i' s'.
Proof.
  intros H1 H2 H3. unfold due, deadline_base. now rewrite H1, H2, H3.
Qed.

(** One invocation, channel 1: equal views and equal readings but for the
    second pin give equal views and equal channel-1 outputs. *)
Lemma loop_view1 (i i' : Input) (s s' : State) :
  same_but_adc2 i i' -> view1 s = view1 s' ->
  view1 (fst (loop i s)) = view1 (fst (loop i' s')) /\
  option_map out1 (snd (loop i s)) = option_map out1 (snd (loop i' s')).
Proof.
  intros (I1 & I2 & I3 & I4) V. unfold view1 in V.
  injection V as R L C1 C2 M1 M2 B G.
  change (nth_error (st s) 0 = nth_error (st s') 0) in R.
  destruct (due_same i i' s s' I1 I2 L) as [D Db].
  destruct (due i' s') eqn:D'.
  - rewrite (loop_due i s D), (loop_due i' s' D'). cbn [fst snd option_map].
    assert (F : nth_error (st1_of i s) 0 = nth_error (st1_of i' s') 0 /\
                f1_of i s = f1_of i' s').
    { unfold st1_of, f1_of, raw1_of. rewrite I4.
      now apply ECGFilter_same_row. }
    destruct F as [F0 F1].
    destruct (uc_view1 (f1_of i s) (f2_of i s) (f2_of i' s') (ms_now i)
                (cal s) (cal s') C1 C2 M1 M2 B G)
      as (U1 & U2 & U3 & U4 & U5 & U6).
    cbv zeta in U1, U2, U3, U4, U5, U6.
    rewrite I3 in U1, U2, U3, U4, U5, U6. rewrite F1 in U1, U2, U3, U4, U5, U6.
    fold (cal_of i' s') in U1, U2, U3, U4, U5, U6.
    assert (Ec : cal_of i s =
                 updateCalibration (f1_of i' s') (f2_of i s) (ms_now i') (cal s)).
    { unfold cal_of. now rewrite F1, I3. }
    rewrite <- Ec in U1, U2, U3, U4, U5, U6.
    split.
    + unfold view1. cbn [st cal lastUs].
      unfold st2_of. rewrite !(ECGFilter_other 1 0) by discriminate.
      now rewrite F0, Db, U1, U2, U3, U4, U5, U6.
    + unfold out1, tick_of. cbn [filt1 cal1 emitted]. unfold emitJson.
      cbn [lead1]. now rewrite F1, U1, U5, U6.
  - rewrite (loop_not_due i s D), (loop_not_due i' s' D').
    cbn [fst snd option_map]. split; [ | reflexivity ].
    unfold view1. cbn [st cal lastUs].
    now rewrite R, Db, C1, C2, M1, M2, B, G.
Qed.

(** The same for channel 2. *)
Lemma loop_view2 (i i' : Input) (s s' : State) :
  same_but_adc1 i i' -> view2 s = view2 s' ->
  view2 (fst (loop i s)) = view2 (fst (loop i' s')) /\
  option_map out2 (snd (loop i s)) = option_map out2 (snd (loop i' s')).
Proof.
  intros (I1 & I2 & I3 & I4) V. unfold view2 in V.
  injection V as R L C1 C2 M1 M2 B G.
  change (nth_error (st s) 1 = nth_error (st s') 1) in R.
  destruct (due_same i i' s s' I1 I2 L) as [D Db].
  destruct (due i' s') eqn:D'.
  - rewrite (loop_due i s D), (loop_due i' s' D'). cbn [fst snd option_map].
    assert (F : nth_error (st2_of i s) 1 = nth_error (st2_of i' s') 1 /\
                f2_of i s = f2_of i' s').
    { unfold st2_of, f2_of, raw2_of. rewrite I4.
      apply ECGFilter_same_row. unfold st1_of.
      rewrite !(ECGFilter_other 0 1) by discriminate. exact R. }
    destruct F as [F0 F2].
    destruct (uc_view2 (f1_of i s) (f1_of i' s') (f2_of i s) (ms_now i)
                (cal s) (cal s') C1 C2 M1 M2 B G)
      as (U1 & U2 & U3 & U4 & U5 & U6).
    cbv zeta in U1, U2, U3, U4, U5, U6.
    rewrite I3 in U1, U2, U3, U4, U5, U6. rewrite F2 in U1, U2, U3, U4, U5, U6.
    fold (cal_of i' s') in U1, U2, U3, U4, U5, U6.
    assert (Ec : cal_of i s =
                 updateCalibration (f1_of i s) (f2_of i' s') (ms_now i') (cal s)).
    { unfold cal_of. now rewrite F2, I3. }
    rewrite <- Ec in U1, U2, U3, U4, U5, U6.
    split.
    + unfold view2. cbn [st cal lastUs].
      now rewrite F0, Db, U1, U2, U3, U4, U5, U6.
    + unfold out2, tick_of. cbn [filt2 cal2 emitted]. unfold emitJson.
      cbn [lead2]. now rewrite F2, U1, U5, U6.
  - rewrite (loop_not_due i s D), (loop_not_due i' s' D').
    cbn [fst snd option_map]. split; [ | reflexivity ].
    unfold view2. cbn [st cal lastUs].
    now rewrite R, Db, C1, C2, M1, M2, B, G.
Qed.

Lemma run_view1 (ins ins' : list Input) :
  Forall2 same_but_adc2 ins ins' ->
  forall s s', view1 s = view1 s' ->
  map (option_map out1) (snd (run ins s)) =
    map (option_map out1) (snd (run ins' s')).
Proof.
  induction 1 as [ | i i' rest rest' Hi Hrest IH ]; intros s s' V.
  - reflexivity.
  - rewrite !run_cons. cbn [snd map].
    destruct (loop_view1 i i' s s' Hi V) as [V' O].
    now rewrite O, (IH _ _ V').
Qed.

Lemma run_view2 (ins ins' : list Input) :
  Forall2 same_but_adc1 ins ins' ->
  forall s s', view2 s = view2 s' ->
  map (option_map out2) (snd (run ins s)) =
    map (option_map out2) (snd (run ins' s')).
Proof.
  induction 1 as [ | i i' rest rest' Hi Hrest IH ]; intros s s' V.
  - reflexivity.
  - rewrite !run_cons. cbn [snd map].
    destruct (loop_view2 i i' s s' Hi V) as [V' O].
    now rewrite O, (IH _ _ V').
Qed.

Lemma map_out_filt1 (os os' : list (option Tick)) :
  map (option_map out1) os = map (option_map out1) os' ->
  map (option_map filt1) os = map (option_map filt1) os'.
Proof.
  revert os'. induction os as [ | o r IH ]; intros [ | o' r' ] H;
    try discriminate; [ reflexivity | ].
  cbn [map] in *. injection H as Ho Hr. rewrite (IH _ Hr). f_equal.
  destruct o, o'; try discriminate; [ | reflexivity ].
  cbn [option_map] in *. unfold out1 in Ho. congruence.
Qed.

Lemma map_out_filt2 (os os' : list (option Tick)) :
  map (option_map out2) os = map (option_map out2) os' ->
  map (option_map filt2) os = map (option_map filt2) os'.
Proof.
  revert os'. induction os as [ | o r IH ]; intros [ | o' r' ] H;
    try discriminate; [ reflexivity | ].
  cbn [map] in *. injection H as Ho Hr. rewrite (IH _ Hr). f_equal.
  destruct o, o'; try discriminate; [ | reflexivity ].
  cbn [option_map] in *. unfold out2 in Ho. congruence.
Qed.

End Independence.

(** C5. Two runs from the same state whose invocations get the same
    readings except for the second ADC pin produce, invocation by
    invocation, the same filtered channel-1 sample (and the same calibrated
    and emitted lead1); symmetrically, readings that differ on the first pin
    only leave the filtered channel-2 samples (and lead2) the same. *)
Theorem C5_channel_independence (ins ins' : list Input) (s : State) :
  (Forall2 same_but_adc2 ins ins' ->
     map (option_map filt1) (snd (run ins s)) =
       map (option_map filt1) (snd (run ins' s)) /\
     map (option_map out1) (snd (run ins s)) =
       map (option_map out1) (snd (run ins' s))) /\
  (Forall2 same_but_adc1 ins ins' ->
     map (option_map filt2) (snd (run ins s)) =
       map (option_map filt2) (snd (run ins' s)) /\
     map (option_map out2) (snd (run ins s)) =
       map (option_map out2) (snd (run ins' s))).
Proof.
  split; intro H.
  - pose proof (run_view1 ins ins' H s s eq_refl) as E.
    split; [ now apply map_out_filt1 | exact E ].
  - pose proof (run_view2 ins ins' H s s eq_refl) as E.
    split; [ now apply map_out_filt2 | exact E ].
Qed.

(* ================================================================== *)
(** * The end-to-end scenario with an identity cascade *)

Section Scenario.

Lemma pass_stage_out (s : Biquad) (x : Qc) :
  is_pass s ->
  snd (processStage s x) = x /\ is_pass (fst (processStage s x)).
Proof.
  intros (A1 & A2 & B0 & B1 & B2). unfold processStage, is_pass.
  cbn [fst snd a1 a2 b0 b1 b2]. rewrite A1, A2, B0, B1, B2.
  split; [ qc_lra | repeat split ].
Qed.

Lemma Forall_upd {A : Type} (P : A -> Prop) (l : list A) (i : nat) (v : A) :
  Forall P l -> P v -> Forall P (upd l i v).
Proof.
  intros Hl Hv. revert i. induction Hl as [ | h t Hh Ht IH ]; intros [ | j ];
    simpl; constructor; auto.
Qed.

Lemma row_iter_pass (c : list Biquad) (x : Qc) (i : nat) :
  Forall is_pass c ->
  exists c', row_iter (Some c, x) i = (Some c', x) /\ Forall is_pass c'.
Proof.
  intro H. unfold row_iter. cbn [fst snd].
  destruct (nth_error c i) as [ s | ] eqn:E.
  - assert (Hs : is_pass s).
    { rewrite Forall_forall in H. apply H. eapply nth_error_In, E. }
    destruct (pass_stage_out s x Hs) as [O P].
    destruct (processStage s x) as [s' out]. cbn [fst snd] in *. subst out.
    exists (upd c i s'). split; [ reflexivity | now apply Forall_upd ].
  - exists c. now split.
Qed.

Lemma fold_row_pass (idx : list nat) (c : list Biquad) (x : Qc) :
  Forall is_pass c ->
  exists c', fold_left row_iter idx (Some c, x) = (Some c', x) /\
             Forall is_pass c'.
Proof.
  revert c. induction idx as [ | i rest IH ]; intros c H.
  - exists c. now split.
  - cbn [fold_left]. destruct (row_iter_pass c x i H) as (c1 & E & H1).
    rewrite E. now apply IH.
Qed.

(** Through a pass-through bank a sample comes out as it went in, and the
    bank stays a pass-through bank. *)
Lemma ECGFilter_pass (ch : nat) (x : Qc) (b : Bank) :
  (ch = 0 \/ ch = 1)%nat -> pass_bank b ->
  snd (ECGFilter ch x b) = x /\ pass_bank (fst (ECGFilter ch x b)).
Proof.
  intros Hch (c0 & c1 & R0 & R1 & P0 & P1).
  pose proof (ECGFilter_view ch x b) as V.
  destruct Hch as [ -> | -> ].
  - rewrite R0 in V. destruct (fold_row_pass (seq 0 4) c0 x P0) as (c' & E & P').
    rewrite E in V. injection V as V1 V2. split; [ exact V2 | ].
    exists c', c1. repeat split; try assumption.
    rewrite (ECGFilter_other 0 1) by discriminate. exact R1.
  - rewrite R1 in V. destruct (fold_row_pass (seq 0 4) c1 x P1) as (c' & E & P').
    rewrite E in V. injection V as V1 V2. split; [ exact V2 | ].
    exists c0, c'. repeat split; try assumption.
    rewrite (ECGFilter_other 1 0) by discriminate. exact R0.
Qed.

Lemma within_100 : within_sentinels (of_int 100).
Proof. split; discriminate. Qed.

Lemma within_150 : within_sentinels (of_int 150).
Proof. split; discriminate. Qed.

Lemma scenario_filtered (i : Input) (s : State) :
  scenario_input i -> pass_bank (st s) ->
  f1_of i s = of_int 100 /\ f2_of i s = of_int 150 /\ pass_bank (st2_of i s).
Proof.
  intros [I1 I2] P.
  destruct (ECGFilter_pass 0 (raw1_of i) (st s) (or_introl eq_refl) P)
    as [F1 P1].
  destruct (ECGFilter_pass 1 (raw2_of i) (st1_of i s) (or_intror eq_refl) P1)
    as [F2 P2].
  assert (R1 : raw1_of i = of_int 100).
  { unfold raw1_of. cbn [INVERT_CH1]. now rewrite I1. }
  assert (R2 : raw2_of i = of_int 150).
  { unfold raw2_of. cbn [INVERT_CH2]. now rewrite I2. }
  unfold f1_of, f2_of, st2_of.
  split; [ now rewrite F1 | ]. split; [ now rewrite F2 | exact P2 ].
Qed.

Lemma emit_zero :
  emitJson ((of_int 100 - of_int 100) * (REF_MV / min_floor) * MV_PER_UNIT)
           ((of_int 150 - of_int 150) * (REF_MV / min_floor) * MV_PER_UNIT)
  = zeroRecord.
Proof.
  unfold emitJson, zeroRecord. f_equal; apply Qc_is_canon; reflexivity.
Qed.

(** One invocation in the scenario: the invariant is kept, and a processed
    tick has the constants as filtered samples and, once the flag is set,
    emits the all-zero record. *)
Lemma loop_scenario (i : Input) (s : State) :
  scenario_input i -> scenario_state s ->
  scenario_state (fst (loop i s)) /\
  (forall t, snd (loop i s) = Some t ->
     filt1 t = of_int 100 /\ filt2 t = of_int 150 /\
     (calibrated (cal (fst (loop i s))) = true -> emitted t = zeroRecord)).
Proof.
  intros I [P C].
  destruct (due i s) eqn:D.
  - rewrite (loop_due i s D). cbn [fst snd].
    destruct (scenario_filtered i s I P) as (F1 & F2 & P2).
    assert (Ec : cal_of i s =
                 updateCalibration (of_int 100) (of_int 150) (ms_now i) (cal s)).
    { unfold cal_of. now rewrite F1, F2. }
    destruct (uc_flat (of_int 100) (of_int 150) within_100 within_150
                (ms_now i) (cal s) C) as (C' & _).
    cbv zeta in C'. rewrite <- Ec in C'.
    split; [ split; assumption | ].
    intros t Ht. injection Ht as <-. unfold tick_of.
    cbn [filt1 filt2 emitted cal]. repeat split; try assumption.
    intro T. rewrite T.
    destruct C' as (_ & _ & K). destruct (K T) as (B1 & B2 & G1 & G2).
    rewrite F1, F2, B1, B2, G1, G2. apply emit_zero.
  - rewrite (loop_not_due i s D). cbn [fst snd].
    split; [ split; assumption | discriminate ].
Qed.

Lemma run_scenario (ins : list Input) (s : State) :
  Forall scenario_input ins -> scenario_state s ->
  scenario_state (fst (run ins s)).
Proof.
  intro H. revert s. induction H as [ | i rest Hi Hrest IH ]; intros s Hs.
  - exact Hs.
  - rewrite run_cons. cbn [fst]. apply IH. now apply loop_scenario.
Qed.

Lemma setup_identity_scenario (ms : Z) : scenario_state (setup_identity ms).
Proof.
  split.
  - exists [passStage; passStage; passStage; passStage],
           [passStage; passStage; passStage; passStage].
    assert (P : is_pass passStage) by (repeat split).
    split; [ reflexivity | ]. split; [ reflexivity | ].
    split; repeat constructor; exact P.
  - split; [ left; split; reflexivity | ].
    split; [ left; split; reflexivity | discriminate ].
Qed.

End Scenario.

(** C8. With the identity cascade in place of the filter table, let the
    sketch run over invocations that all read 100 on the first pin and 150 on
    the second, with any clock readings.  If the flag is set at the end of
    that run, then baseline1 = 100, baseline2 = 150 and
    gain1 = gain2 = REF_MV / min_floor, and a tick processed next from the
    same readings emits the record with all six values zero.  With the clock
    on time, the flag is set after 625 invocations (5000 ms at 8 ms each). *)
Theorem C8_end_to_end (ins : list Input) (ms0 : Z) :
  Forall scenario_input ins ->
  calibrated (cal (fst (run ins (setup_identity ms0)))) = true ->
  let s := fst (run ins (setup_identity ms0)) in
  (baseline1 (cal s) = of_int 100 /\ baseline2 (cal s) = of_int 150 /\
   gain1 (cal s) = REF_MV / min_floor /\ gain2 (cal s) = REF_MV / min_floor) /\
  (forall (nxt : Input) (s' : State) (t : Tick),
      scenario_input nxt -> loop nxt s = (s', Some t) ->
      emitted t = zeroRecord) /\
  calibrated
    (cal (fst (run (map on_time (seq 1 625)) (setup_identity 0)))) = true /\
  calibrated
    (cal (fst (run (map on_time (seq 1 624)) (setup_identity 0)))) = false.
Proof.
  intros H T s.
  pose proof (run_scenario ins (setup_identity ms0) H
                (setup_identity_scenario ms0)) as Inv.
  fold s in Inv, T.
  split; [ | split; [ | split ] ].
  - destruct Inv as [_ (_ & _ & K)]. exact (K T).
  - intros nxt s' t I L.
    destruct (loop_scenario nxt s I Inv) as [_ Z].
    rewrite L in Z. cbn [fst snd] in Z.
    destruct (Z t eq_refl) as (_ & _ & E). apply E.
    replace s' with (fst (loop nxt s)) by now rewrite L.
    now apply loop_keeps_flag.
  - vm_compute. reflexivity.
  - vm_compute. reflexivity.
Qed.

(* ================================================================== *)
(** * The scheduler *)

Section Scheduler.

Lemma u32_range (z : Z) : (0 <= u32 z < 2 ^ 32)%Z.
Proof. unfold u32. apply Z.mod_pos_bound. reflexivity. Qed.

Lemma u32_small (z : Z) : (0 <= z < 4294967296)%Z -> u32 z = z.
Proof. unfold u32. apply Z.mod_small. Qed.

Lemma u32_add_l (x y : Z) : u32 (u32 x + y) = u32 (x + y).
Proof. unfold u32. apply Zplus_mod_idemp_l. Qed.

Lemma loop_lastUs (inp : Input) (s : State) :
  lastUs (fst (loop inp s)) =
    Some (if due inp s
          then u32 (deadline_base inp s + intervalUs)
          else deadline_base inp s).
Proof.
  destruct (due inp s) eqn:D.
  - now rewrite (loop_due inp s D).
  - now rewrite (loop_not_due inp s D).
Qed.

Lemma loop_tick_iff (inp : Input) (s : State) :
  snd (loop inp s) = (if due inp s then Some (tick_of inp s) else None).
Proof.
  destruct (due inp s) eqn:D.
  - now rewrite (loop_due inp s D).
  - now rewrite (loop_not_due inp s D).
Qed.

Lemma due_iff (inp : Input) (s : State) :
  due inp s = true <->
  (intervalUs <= u32 (u32 (us_now inp) - deadline_base inp s))%Z.
Proof.
  unfold due. rewrite negb_true_iff, Z.ltb_ge. reflexivity.
Qed.

(** The static [lastUs] after a run: one interval further for each tick the
    run processed. *)
Lemma run_lastUs (ins : list Input) (s : State) (l0 : Z) :
  lastUs s = Some l0 -> (0 <= l0 < 2 ^ 32)%Z ->
  lastUs (fst (run ins s)) =
    Some (u32 (l0 + intervalUs * Z.of_nat (length (ticks (snd (run ins s)))))).
Proof.
  revert s l0. induction ins as [ | i rest IH ]; intros s l0 H R.
  - cbn [run fst snd ticks length Z.of_nat].
    change (2 ^ 32)%Z with 4294967296%Z in R.
    now rewrite Z.mul_0_r, Z.add_0_r, u32_small.
  - rewrite run_cons. cbn [fst snd].
    pose proof (loop_lastUs i s) as L. pose proof (loop_tick_iff i s) as T.
    assert (B : deadline_base i s = l0) by (unfold deadline_base; now rewrite H).
    rewrite B in L. destruct (due i s).
    + rewrite T. cbn [ticks length].
      rewrite (IH _ _ L (u32_range _)), u32_add_l. f_equal. f_equal.
      rewrite Nat2Z.inj_succ. ring.
    + rewrite T. cbn [ticks]. now rewrite (IH _ _ L R).
Qed.

Lemma run_length (ins : list Input) (s : State) :
  length (snd (run ins s)) = length ins.
Proof.
  revert s. induction ins as [ | i rest IH ]; intro s.
  - reflexivity.
  - rewrite run_cons. cbn [snd length]. now rewrite IH.
Qed.

Lemma ticks_length (os : list (option Tick)) :
  (length (ticks os) <= length os)%nat.
Proof.
  induction os as [ | [ t | ] r IH ]; cbn [ticks length]; lia.
Qed.

(** Behind by two intervals or more: this invocation and the next one both
    process a tick. *)
Lemma catch_up (s : State) (i1 i2 : Input) (l : Z) :
  lastUs s = Some l -> (0 <= l <= us_now i1)%Z ->
  (us_now i1 <= us_now i2)%Z -> (us_now i2 < 2 ^ 32)%Z ->
  (2 * intervalUs <= us_now i1 - l)%Z ->
  due i1 s = true /\ due i2 (fst (loop i1 s)) = true.
Proof.
  intros H R12 R2 R3 Late.
  assert (I : intervalUs = 8000%Z) by reflexivity.
  change (2 ^ 32)%Z with 4294967296%Z in *.
  assert (B : deadline_base i1 s = l) by (unfold deadline_base; now rewrite H).
  assert (D1 : due i1 s = true).
  { apply due_iff. rewrite B.
    rewrite (u32_small (us_now i1)) by lia. rewrite u32_small; lia. }
  split; [ exact D1 | ].
  apply due_iff. unfold deadline_base. rewrite loop_lastUs, D1, B.
  rewrite (u32_small (us_now i2)) by lia.
  rewrite (u32_small (l + intervalUs)) by lia.
  rewrite u32_small; lia.
Qed.

End Scheduler.

(** C7, as the code has it.  An invocation processes a tick exactly when
    the clock is at least one interval past the static [lastUs], and then
    moves [lastUs] one interval on (modulo 2^32), never to the current time;
    otherwise it changes nothing.  Each invocation processes at most one
    tick, and after a run [lastUs] is its initial value plus one interval per
    processed tick, so that each deadline is served by exactly one tick.  An
    invocation that finds the clock two intervals or more past [lastUs] is
    followed by an invocation that processes a tick as well, without waiting:
    the overdue ticks are made up one per invocation. *)
Theorem C7_scheduler_accumulates :
  (forall (inp : Input) (s : State),
      (due inp s = false ->
         loop inp s =
           (mkState (st s) (cal s) (Some (deadline_base inp s)), None)) /\
      (due inp s = true ->
         snd (loop inp s) = Some (tick_of inp s) /\
         lastUs (fst (loop inp s)) =
           Some (u32 (deadline_base inp s + intervalUs)))) /\
  (forall (ins : list Input) (s : State) (l0 : Z),
      lastUs s = Some l0 -> (0 <= l0 < 2 ^ 32)%Z ->
      lastUs (fst (run ins s)) =
        Some (u32 (l0 + intervalUs
                        * Z.of_nat (length (ticks (snd (run ins s)))))) /\
      length (snd (run ins s)) = length ins /\
      (length (ticks (snd (run ins s))) <= length ins)%nat) /\
  (forall (s : State) (i1 i2 : Input) (l : Z),
      lastUs s = Some l -> (0 <= l <= us_now i1)%Z ->
      (us_now i1 <= us_now i2)%Z -> (us_now i2 < 2 ^ 32)%Z ->
      (2 * intervalUs <= us_now i1 - l)%Z ->
      due i1 s = true /\ due i2 (fst (loop i1 s)) = true).
Proof.
  split; [ | split ].
  - intros inp s. split; intro D.
    + now apply loop_not_due.
    + now rewrite loop_tick_iff, loop_lastUs, D.
  - intros ins s l0 H R. split; [ now apply run_lastUs | ].
    split; [ apply run_length | ].
    rewrite <- (run_length ins s). apply ticks_length.
  - exact catch_up.
Qed.

Lemma C7_scheduler_accumulates_witness :
  lastUs (fst (run (map at_us [40000; 41000; 42000; 45000; 48000]%Z)
                   (fst (loop (at_us 0) (setup 0))))) = Some 40000%Z /\
  due (at_us 40000) (fst (loop (at_us 0) (setup 0))) = true /\
  due (at_us 41000)
      (fst (loop (at_us 40000) (fst (loop (at_us 0) (setup 0))))) = true.
Proof.
  destruct C7_scheduler_accumulates as (_ & B & C).
  split.
  - destruct (B (map at_us [40000; 41000; 42000; 45000; 48000]%Z)
                (fst (loop (at_us 0) (setup 0))) 0%Z eq_refl) as (L & _).
    + vm_compute. split; [ discriminate | reflexivity ].
    + rewrite L. vm_compute. reflexivity.
  - apply (C (fst (loop (at_us 0) (setup 0))) (at_us 40000) (at_us 41000) 0%Z).
    + reflexivity.
    + vm_compute. split; discriminate.
    + vm_compute. discriminate.
    + vm_compute. reflexivity.
    + vm_compute. discriminate.
Defined.

(** C7, as stated, fails: from [lastUs = 0], an invocation at 40000 us
    processes its tick four intervals late, and the invocation 1000 us after
    it processes the next tick at once instead of one interval later. *)
Lemma C7_catch_up_burst_counterexample : ~ delayed_not_burst.
Proof.
  intro H.
  specialize (H (fst (loop (at_us 0) (setup 0))) (at_us 40000) (at_us 41000)).
  cbn [us_now at_us] in H.
  assert (C : (intervalUs <= 41000 - 40000)%Z).
  { apply H.
    - split; discriminate.
    - reflexivity.
    - vm_compute. reflexivity.
    - vm_compute. discriminate.
    - vm_compute. reflexivity. }
  vm_compute in C. apply C. reflexivity.
Qed.

(** The run behind that counterexample: after a stall until 40000 us, five
    ticks are processed within 4000 us, the sixth on time at 48000 us. *)
Example burst_after_stall :
  sample_times
    (map at_us [0; 40000; 41000; 42000; 43000; 44000; 45000; 48000]%Z)
    (setup 0)
  = [40000; 41000; 42000; 43000; 44000; 48000]%Z.
Proof. vm_compute. reflexivity. Qed.

Lemma C5_channel_independence_witness :
  map (option_map filt1)
      (snd (run [mkInput 0 8000 8 512 300; mkInput 0 16000 16 520 310]
                (setup 0))) =
  map (option_map filt1)
      (snd (run [mkInput 0 8000 8 512 1023; mkInput 0 16000 16 520 0]
                (setup 0))).
Proof.
  apply (proj1 (C5_channel_independence
                  [mkInput 0 8000 8 512 300; mkInput 0 16000 16 520 310]
                  [mkInput 0 8000 8 512 1023; mkInput 0 16000 16 520 0]
                  (setup 0))).
  repeat constructor.
Defined.

Lemma C8_end_to_end_witness :
  let s := fst (run (map on_time (seq 1 625)) (setup_identity 0)) in
  baseline1 (cal s) = of_int 100 /\ baseline2 (cal s) = of_int 150 /\
  gain1 (cal s) = REF_MV / min_floor /\ gain2 (cal s) = REF_MV / min_floor /\
  option_map emitted (snd (loop (on_time 626) s)) = Some zeroRecord.
Proof.
  intro s.
  assert (F : Forall scenario_input (map on_time (seq 1 625))).
  { apply Forall_forall. intros i Hi. apply in_map_iff in Hi.
    destruct Hi as (k & <- & _). split; reflexivity. }
  assert (T : calibrated
                (cal (fst (run (map on_time (seq 1 625)) (setup_identity 0))))
              = true) by (vm_compute; reflexivity).
  destruct (C8_end_to_end (map on_time (seq 1 625)) 0 F T)
    as ((B1 & B2 & G1 & G2) & Z & _).
  fold s in B1, B2, G1, G2, Z.
  split; [ exact B1 | ]. split; [ exact B2 | ].
  split; [ exact G1 | ]. split; [ exact G2 | ].
  assert (D : due (on_time 626) s = true) by (vm_compute; reflexivity).
  pose proof (loop_due (on_time 626) s D) as L.
  rewrite L. cbn [snd option_map]. apply f_equal.
  apply (Z (on_time 626) _ _ (conj eq_refl eq_refl) L).
Defined.

(* ================================================================== *)
(** * The filter bank along a run *)

Section Layout.

Lemma same_coeffs_refl (s : Biquad) : same_coeffs s s.
Proof. repeat split. Qed.

Lemma same_coeffs_trans (s1 s2 s3 : Biquad) :
  same_coeffs s1 s2 -> same_coeffs s2 s3 -> same_coeffs s1 s3.
Proof.
  intros (A1 & A2 & A3 & A4 & A5) (B1 & B2 & B3 & B4 & B5).
  unfold same_coeffs. now rewrite A1, A2, A3, A4, A5.
Qed.

Lemma processStage_coeffs (s : Biquad) (x : Qc) :
  same_coeffs s (fst (processStage s x)).
Proof. repeat split. Qed.

Lemma Forall2_refl {A : Type} (R : A -> A -> Prop) (l : list A) :
  (forall x, R x x) -> Forall2 R l l.
Proof. intro H. induction l; constructor; auto. Qed.

Lemma Forall2_trans {A : Type} (R : A -> A -> Prop) (l1 l2 l3 : list A) :
  (forall x y z, R x y -> R y z -> R x z) ->
  Forall2 R l1 l2 -> Forall2 R l2 l3 -> Forall2 R l1 l3.
Proof.
  intros T H. revert l3. induction H as [ | x y l l' Hxy Hl IH ];
    intros l3 H3; inversion H3; subst; constructor; eauto.
Qed.

(** Replacing an element by a related one keeps two lists related. *)
Lemma Forall2_upd_same {A : Type} (R : A -> A -> Prop) (l : list A) (i : nat)
      (v : A) :
  (forall x, R x x) ->
  (forall x, nth_error l i = Some x -> R x v) ->
  Forall2 R l (upd l i v).
Proof.
  intros Rr. revert i. induction l as [ | h t IH ]; intros [ | j ] H; simpl.
  - constructor.
  - constructor.
  - constructor; [ apply H; reflexivity | now apply Forall2_refl ].
  - constructor; [ apply Rr | apply IH; exact H ].
Qed.

Lemma same_layout_refl (b : Bank) : same_layout b b.
Proof.
  apply Forall2_refl. intro r. apply Forall2_refl. apply same_coeffs_refl.
Qed.

Lemma same_layout_trans (b1 b2 b3 : Bank) :
  same_layout b1 b2 -> same_layout b2 b3 -> same_layout b1 b3.
Proof.
  apply Forall2_trans. intros x y z. apply Forall2_trans.
  exact same_coeffs_trans.
Qed.

Lemma filter_iter_layout (ch : nat) (st : Bank) (y : Qc) (i : nat) :
  same_layout st (fst (filter_iter ch (st, y) i)).
Proof.
  unfold filter_iter, get_stage, set_stage.
  destruct (nth_error st ch) as [ c | ] eqn:Ec; [ | apply same_layout_refl ].
  destruct (nth_error c i) as [ s | ] eqn:Es; [ | apply same_layout_refl ].
  pose proof (processStage_coeffs s y) as P.
  destruct (processStage s y) as [s' out]. cbn [fst] in *.
  apply Forall2_upd_same.
  - intro r. apply Forall2_refl. apply same_coeffs_refl.
  - intros r Hr. assert (r = c) by congruence. subst r.
    apply Forall2_upd_same; [ apply same_coeffs_refl | ].
    intros x Hx. assert (x = s) by congruence. now subst x.
Qed.

Lemma fold_layout (ch : nat) (idx : list nat) (st : Bank) (y : Qc) :
  same_layout st (fst (fold_left (filter_iter ch) idx (st, y))).
Proof.
  revert st y. induction idx as [ | i rest IH ]; intros st y.
  - apply same_layout_refl.
  - cbn [fold_left]. pose proof (filter_iter_layout ch st y i) as H.
    destruct (filter_iter ch (st, y) i) as [st' y']. cbn [fst] in H.
    eapply same_layout_trans; [ exact H | apply IH ].
Qed.

Lemma ECGFilter_layout (ch : nat) (x : Qc) (st : Bank) :
  same_layout st (fst (ECGFilter ch x st)).
Proof. apply fold_layout. Qed.

Lemma loop_layout (inp : Input) (s : State) :
  same_layout (st s) (st (fst (loop inp s))).
Proof.
  destruct (due inp s) eqn:D.
  - rewrite (loop_due inp s D). cbn [fst st]. unfold st2_of.
    eapply same_layout_trans; [ | apply ECGFilter_layout ].
    unfold st1_of. apply ECGFilter_layout.
  - rewrite (loop_not_due inp s D). apply same_layout_refl.
Qed.

End Layout.

(** X1. Whatever the readings, a run leaves the filter bank with the rows
    and stages it had and every stage with the coefficients it had: filtering
    writes the two state cells of a stage and nothing else.  From [setup],
    the bank is always two rows of the four stages of [initFilter]. *)
Theorem X1_bank_layout_kept (ins : list Input) (s : State) (ms : Z) :
  same_layout (st s) (st (fst (run ins s))) /\
  same_layout initFilter (st (fst (run ins (setup ms)))) /\
  length (st (fst (run ins (setup ms)))) = 2%nat /\
  Forall (fun row => length row = 4%nat) (st (fst (run ins (setup ms)))).
Proof.
  assert (G : forall ins s, same_layout (st s) (st (fst (run ins s)))).
  { clear. intros ins. induction ins as [ | i rest IH ]; intro s.
    - apply same_layout_refl.
    - rewrite run_cons. cbn [fst].
      eapply same_layout_trans; [ apply loop_layout | apply IH ]. }
  split; [ apply G | ]. split; [ apply (G ins (setup ms)) | ].
  pose proof (G ins (setup ms)) as H. cbn [setup st] in H.
  unfold initFilter in H.
  inversion H as [ | r0 r0' t0 t0' H0 T0 ]; subst.
  inversion T0 as [ | r1 r1' t1 t1' H1 T1 ]; subst.
  inversion T1; subst.
  split; [ reflexivity | ].
  constructor; [ | constructor; [ | constructor ] ].
  - apply Forall2_length in H0. now rewrite <- H0.
  - apply Forall2_length in H1. now rewrite <- H1.
Qed.

(* ================================================================== *)
(** * The calibration window *)

Section Window.

Lemma uc_start (f1 f2 : Qc) (ms : Z) (c : Calib) :
  calibStartMs (updateCalibration f1 f2 ms c) = calibStartMs c.
Proof. unfold updateCalibration. now destruct (negb _ && _). Qed.

Lemma loop_start (inp : Input) (s : State) :
  calibStartMs (cal (fst (loop inp s))) = calibStartMs (cal s).
Proof.
  rewrite loop_cal. destruct (due inp s); [ apply uc_start | reflexivity ].
Qed.

Lemma run_start (ins : list Input) (s : State) :
  calibStartMs (cal (fst (run ins s))) = calibStartMs (cal s).
Proof.
  revert s. induction ins as [ | i rest IH ]; intro s.
  - reflexivity.
  - rewrite run_cons. cbn [fst]. now rewrite IH, loop_start.
Qed.

(** The flag after one invocation. *)
Lemma loop_flag (inp : Input) (s : State) :
  calibrated (cal (fst (loop inp s))) =
    calibrated (cal s) || (due inp s && deadline_reached (ms_now inp) (cal s)).
Proof.
  rewrite loop_cal. destruct (due inp s).
  - unfold cal_of. now rewrite uc_calibrated.
  - cbn [andb]. now rewrite orb_false_r.
Qed.

(** While the flag is clear, baselines and gains are untouched. *)
Lemma uc_params_pending (f1 f2 : Qc) (ms : Z) (c : Calib) :
  calibrated (updateCalibration f1 f2 ms c) = false ->
  cal_params (updateCalibration f1 f2 ms c) = cal_params c.
Proof.
  unfold updateCalibration, cal_params.
  destruct (negb _ && _);
    cbn [calibrated baseline1 baseline2 gain1 gain2]; [ discriminate | ].
  reflexivity.
Qed.

Lemma loop_params_frozen (inp : Input) (s : State) :
  calibrated (cal s) = true ->
  cal_params (cal (fst (loop inp s))) = cal_params (cal s).
Proof.
  intro H. rewrite loop_cal. destruct (due inp s); [ | reflexivity ].
  destruct (uc_frozen (f1_of inp s) (f2_of inp s) (ms_now inp) (cal s) H)
    as (_ & B1 & B2 & G1 & G2).
  unfold cal_params, cal_of. now rewrite B1, B2, G1, G2.
Qed.

Lemma loop_params_pending (inp : Input) (s : State) :
  calibrated (cal (fst (loop inp s))) = false ->
  cal_params (cal (fst (loop inp s))) = cal_params (cal s).
Proof.
  rewrite loop_cal. destruct (due inp s); [ | reflexivity ].
  apply uc_params_pending.
Qed.

Lemma run_params_frozen (ins : list Input) (s : State) :
  calibrated (cal s) = true ->
  cal_params (cal (fst (run ins s))) = cal_params (cal s).
Proof.
  revert s. induction ins as [ | i rest IH ]; intros s H.
  - reflexivity.
  - rewrite run_cons. cbn [fst].
    rewrite (IH _ (loop_keeps_flag i s H)). now apply loop_params_frozen.
Qed.

Lemma run_params_pending (ins : list Input) (s : State) :
  calibrated (cal (fst (run ins s))) = false ->
  cal_params (cal (fst (run ins s))) = cal_params (cal s).
Proof.
  revert s. induction ins as [ | i rest IH ]; intros s H.
  - reflexivity.
  - rewrite run_cons in *. cbn [fst] in *.
    assert (F : calibrated (cal (fst (loop i s))) = false).
    { destruct (calibrated (cal (fst (loop i s)))) eqn:E; [ | reflexivity ].
      rewrite (run_keeps_flag rest _ E) in H. discriminate H. }
    rewrite (IH _ H). now apply loop_params_pending.
Qed.

End Window.

(** X2. Baselines and gains are written once.  In a run from [setup] they
    are still 0 and 1 as long as the flag is clear, and once the flag is set
    no continuation of the run changes them, although the running minima and
    maxima keep being updated. *)
Theorem X2_parameters_written_once (ins1 ins2 : list Input) (ms0 : Z) :
  (calibrated (cal (fst (run ins1 (setup ms0)))) = false ->
   cal_params (cal (fst (run ins1 (setup ms0)))) = (0, 0, lit 1 1, lit 1 1)) /\
  (calibrated (cal (fst (run ins1 (setup ms0)))) = true ->
   cal_params (cal (fst (run (ins1 ++ ins2) (setup ms0)))) =
     cal_params (cal (fst (run ins1 (setup ms0))))).
Proof.
  split; intro H.
  - now rewrite (run_params_pending ins1 (setup ms0) H).
  - rewrite run_app. cbn [fst]. now apply run_params_frozen.
Qed.

Lemma X2_parameters_written_once_witness :
  cal_params (cal (fst (run [mkInput 0 8000 8 512 300] (setup 0)))) =
    (0, 0, lit 1 1, lit 1 1) /\
  cal_params
    (cal (fst (run ([mkInput 0 8000 5000 512 300]
                    ++ [mkInput 0 16000 5008 700 100]) (setup 0)))) =
    cal_params (cal (fst (run [mkInput 0 8000 5000 512 300] (setup 0)))).
Proof.
  split.
  - apply (proj1 (X2_parameters_written_once
                    [mkInput 0 8000 8 512 300] [] 0)).
    vm_compute. reflexivity.
  - apply (proj2 (X2_parameters_written_once
                    [mkInput 0 8000 5000 512 300]
                    [mkInput 0 16000 5008 700 100] 0)).
    vm_compute. reflexivity.
Defined.

(** X3. In a run from [setup] at clock [ms0] the flag is set at the end
    exactly when some invocation of the run processed a tick while [millis()]
    read a value at least CALIBRATION_TIME_MS after [ms0] (modulo 2^32):
    neither the passing of time without a processed tick nor a processed tick
    before the deadline sets it. *)
Theorem X3_flag_set_iff_tick_after_deadline (ins : list Input) (ms0 : Z) :
  calibrated (cal (fst (run ins (setup ms0)))) = true <->
  exists (pre : list Input) (i : Input) (post : list Input),
    ins = pre ++ i :: post /\
    due i (fst (run pre (setup ms0))) = true /\
    (CALIBRATION_TIME_MS <= u32 (u32 (ms_now i) - u32 ms0))%Z.
Proof.
  assert (G : forall ins s,
             calibrated (cal s) = false ->
             calibrated (cal (fst (run ins s))) = true ->
             exists pre i post,
               ins = pre ++ i :: post /\
               due i (fst (run pre s)) = true /\
               deadline_reached (ms_now i) (cal s) = true).
  { clear. intros ins. induction ins as [ | i rest IH ]; intros s H0 H1.
    - cbn in H1. congruence.
    - rewrite run_cons in H1. cbn [fst] in H1.
      destruct (calibrated (cal (fst (loop i s)))) eqn:E.
      + rewrite loop_flag, H0 in E. cbn [orb] in E.
        apply andb_true_iff in E. destruct E as [D R].
        exists [], i, rest. now repeat split.
      + destruct (IH _ E H1) as (pre & j & post & -> & D & R).
        exists (i :: pre), j, post. split; [ reflexivity | ].
        rewrite run_cons. cbn [fst]. split; [ exact D | ].
        unfold deadline_reached in *. now rewrite loop_start in R. }
  split.
  - intro H. destruct (G ins (setup ms0) eq_refl H)
      as (pre & i & post & E & D & R).
    exists pre, i, post. repeat split; try assumption.
    unfold deadline_reached in R. cbn [setup cal calibStartMs] in R.
    now apply Z.leb_le.
  - intros (pre & i & post & -> & D & R).
    rewrite run_app. cbn [fst]. rewrite run_cons. cbn [fst].
    apply run_keeps_flag. rewrite loop_flag, D. cbn [andb].
    unfold deadline_reached. rewrite run_start.
    cbn [setup cal calibStartMs].
    apply Z.leb_le in R. rewrite R. apply orb_true_r.
Qed.

(** X4. The deadline test of [updateCalibration] survives the wrap-around
    of [millis()]: with the start value [start] and [e] milliseconds elapsed
    since, both below 2^32, the test compares [e] with CALIBRATION_TIME_MS,
    whether or not the counter has wrapped in between. *)
Theorem X4_deadline_across_wrap (start e : Z) (c : Calib) :
  (0 <= start < 2 ^ 32)%Z -> (0 <= e < 2 ^ 32)%Z ->
  calibStartMs c = start ->
  deadline_reached (start + e) c = (CALIBRATION_TIME_MS <=? e)%Z.
Proof.
  intros Hs He Hc. unfold deadline_reached. rewrite Hc. f_equal.
  unfold u32. rewrite Zminus_mod_idemp_l.
  replace (start + e - start)%Z with e by ring.
  now apply Z.mod_small.
Qed.

Lemma X4_deadline_across_wrap_witness :
  deadline_reached (4294967000 + 5000)
    (mkCalib false 4294967000 0 0 0 0 0 0 0 0) = true /\
  deadline_reached (4294967000 + 4999)
    (mkCalib false 4294967000 0 0 0 0 0 0 0 0) = false.
Proof.
  split.
  - rewrite (X4_deadline_across_wrap 4294967000 5000).
    + reflexivity.
    + split; [ discriminate | reflexivity ].
    + split; [ discriminate | reflexivity ].
    + reflexivity.
  - rewrite (X4_deadline_across_wrap 4294967000 4999).
    + reflexivity.
    + split; [ discriminate | reflexivity ].
    + split; [ discriminate | reflexivity ].
    + reflexivity.
Defined.

(* ================================================================== *)
(** * The scheduler over time *)

Section Polling.

Lemma last_us_cons (prev : Z) (i : Input) (rest : list Input) :
  last_us prev (i :: rest) = last_us (us_now i) rest.
Proof.
  unfold last_us. cbn [map]. generalize (us_now i) as t.
  generalize (map us_now rest) as l. clear. intro l. revert prev.
  induction l as [ | a l IH ]; intros prev t.
  - reflexivity.
  - change (last (t :: a :: l) prev) with (last (a :: l) prev).
    now rewrite !IH.
Qed.

(** The invariant of a polled loop: the clock is never a whole interval
    past [lastUs]. *)
Lemma polled_run (ins : list Input) (s : State) (l0 p0 : Z) :
  lastUs s = Some l0 -> (0 <= l0 <= p0)%Z -> (p0 < l0 + intervalUs)%Z ->
  polled p0 ins ->
  exists l,
    lastUs (fst (run ins s)) = Some l /\
    l = (l0 + intervalUs * Z.of_nat (length (ticks (snd (run ins s)))))%Z /\
    (l <= last_us p0 ins < l + intervalUs)%Z.
Proof.
  assert (I : intervalUs = 8000%Z) by reflexivity.
  revert s l0 p0. induction ins as [ | i rest IH ]; intros s l0 p0 H R0 R1 P.
  - exists l0. cbn [run fst snd ticks length Z.of_nat].
    unfold last_us. cbn [map last]. repeat split; try assumption; lia.
  - destruct P as (P1 & P2 & P3).
    change (2 ^ 32)%Z with 4294967296%Z in P2.
    rewrite run_cons, last_us_cons. cbn [fst snd].
    pose proof (loop_lastUs i s) as L. pose proof (loop_tick_iff i s) as T.
    assert (B : deadline_base i s = l0) by (unfold deadline_base; now rewrite H).
    rewrite B in L.
    assert (E : u32 (u32 (us_now i) - l0) = (us_now i - l0)%Z).
    { rewrite (u32_small (us_now i)) by lia. apply u32_small. lia. }
    destruct (due i s) eqn:D.
    + apply due_iff in D. rewrite B, E in D.
      rewrite (u32_small (l0 + intervalUs)) in L by lia.
      destruct (IH _ (l0 + intervalUs)%Z (us_now i) L) as (l & F1 & F2 & F3);
        try lia; try assumption.
      exists l. rewrite T. cbn [ticks length]. repeat split; try assumption;
        try lia.
    + assert (N : (us_now i - l0 < intervalUs)%Z).
      { destruct (Z.lt_ge_cases (us_now i - l0) intervalUs) as [ | G ];
          [ assumption | ].
        assert (D' : due i s = true) by (apply due_iff; now rewrite B, E).
        congruence. }
      destruct (IH _ l0 (us_now i) L) as (l & F1 & F2 & F3);
        try lia; try assumption.
      exists l. rewrite T. cbn [ticks]. repeat split; try assumption; lia.
Qed.

End Polling.

(** X5. The due test of [loop] survives the wrap-around of [micros()]:
    with [lastUs = l] and [e] microseconds elapsed since that deadline base,
    both below 2^32, the tick is due exactly when [e] is at least one
    interval, whether or not the counter has wrapped in between. *)
Theorem X5_due_across_wrap (inp : Input) (s : State) (l e : Z) :
  lastUs s = Some l -> (0 <= e < 2 ^ 32)%Z -> us_now inp = (l + e)%Z ->
  due inp s = (intervalUs <=? e)%Z.
Proof.
  intros H He Hn. unfold due, deadline_base. rewrite H, Hn.
  replace (u32 (u32 (l + e) - l)) with e.
  - now rewrite Z.leb_antisym.
  - unfold u32. rewrite Zminus_mod_idemp_l.
    replace (l + e - l)%Z with e by ring. symmetry. now apply Z.mod_small.
Qed.

Lemma X5_due_across_wrap_witness :
  due (at_us (4294967000 + 8000))
      (mkState initFilter calib0 (Some 4294967000%Z)) = true /\
  due (at_us (4294967000 + 7999))
      (mkState initFilter calib0 (Some 4294967000%Z)) = false.
Proof.
  split.
  - rewrite (X5_due_across_wrap _ _ 4294967000 8000).
    + reflexivity.
    + reflexivity.
    + split; [ discriminate | reflexivity ].
    + reflexivity.
  - rewrite (X5_due_across_wrap _ _ 4294967000 7999).
    + reflexivity.
    + reflexivity.
    + split; [ discriminate | reflexivity ].
    + reflexivity.
Defined.

(** X6. When [loop] is invoked at least once per interval (and the clock
    does not wrap), no tick is late by a whole interval and the number of
    ticks processed so far is the elapsed time divided by the interval,
    rounded down: the sample count does not drift from the sample rate. *)
Theorem X6_polled_loop_keeps_rate (ins : list Input) (s : State) (l0 p0 : Z) :
  lastUs s = Some l0 -> (0 <= l0 <= p0)%Z -> (p0 < l0 + intervalUs)%Z ->
  polled p0 ins ->
  Z.of_nat (length (ticks (snd (run ins s)))) =
    ((last_us p0 ins - l0) / intervalUs)%Z /\
  lastUs (fst (run ins s)) =
    Some (l0 + intervalUs * ((last_us p0 ins - l0) / intervalUs))%Z.
Proof.
  intros H R0 R1 P.
  destruct (polled_run ins s l0 p0 H R0 R1 P) as (l & F1 & F2 & F3).
  assert (I : intervalUs = 8000%Z) by reflexivity.
  assert (N : Z.of_nat (length (ticks (snd (run ins s)))) =
              ((last_us p0 ins - l0) / intervalUs)%Z).
  { apply (Z.div_unique_pos _ _ _ (last_us p0 ins - l)); lia. }
  split; [ exact N | ]. now rewrite <- N, <- F2.
Qed.

Lemma X6_polled_loop_keeps_rate_witness :
  Z.of_nat
    (length (ticks (snd (run (map at_us [5000; 9000; 16500; 24000; 31000]%Z)
                             (fst (loop (at_us 0) (setup 0))))))) = 3%Z.
Proof.
  rewrite (proj1 (X6_polled_loop_keeps_rate
                    (map at_us [5000; 9000; 16500; 24000; 31000]%Z)
                    (fst (loop (at_us 0) (setup 0))) 0 0
                    eq_refl
                    (conj (Z.le_refl 0) (Z.le_refl 0))
                    eq_refl
                    ltac:(vm_compute; intuition discriminate))).
  reflexivity.
Defined.

(* ================================================================== *)
(** * The calibration square-wave sketch *)

Section SquareWave.

Lemma sq_run_cons (i : Input) (rest : list Input) (s : SqState) :
  sq_run (i :: rest) s =
    (fst (sq_run rest (fst (sq_loop i s))),
     snd (sq_loop i s) :: snd (sq_run rest (fst (sq_loop i s)))).
Proof.
  cbn [sq_run]. destruct (sq_loop i s) as [s1 o]. cbn [fst snd].
  now destruct (sq_run rest s1).
Qed.

(** One invocation either emits nothing and keeps [count], or emits the
    record of the incremented [count]. *)
Lemma sq_loop_cases (i : Input) (s : SqState) :
  (snd (sq_loop i s) = None /\ sq_count (fst (sq_loop i s)) = sq_count s) \/
  (snd (sq_loop i s) = Some (sq_record (u32 (sq_count s + 1))) /\
   sq_count (fst (sq_loop i s)) = u32 (sq_count s + 1)).
Proof.
  unfold sq_loop. destruct (_ <? _)%Z; [ left | right ]; split; reflexivity.
Qed.

(** The records of a run are those of the successive values of [count]. *)
Lemma sq_run_records (ins : list Input) (s : SqState) :
  records (snd (sq_run ins s)) =
    map (fun n => sq_record (u32 (sq_count s + Z.of_nat n)))
        (seq 1 (length (records (snd (sq_run ins s))))).
Proof.
  revert s. induction ins as [ | i rest IH ]; intro s.
  - reflexivity.
  - rewrite sq_run_cons. cbn [snd].
    destruct (sq_loop_cases i s) as [[E C] | [E C]]; rewrite E; cbn [records].
    + rewrite IH at 1. now rewrite C.
    + cbn [length seq map]. apply f_equal.
      etransitivity; [ apply IH | ].
      generalize (length (records (snd (sq_run rest (fst (sq_loop i s)))))).
      intro k. rewrite C, <- (seq_shift k 1), map_map.
      apply map_ext. intro n. apply f_equal.
      rewrite u32_add_l. apply f_equal. lia.
Qed.

Lemma sq_high_mod (count : Z) :
  (0 <= count)%Z -> sq_high count = (count mod 62 <? 31)%Z.
Proof.
  intro H. unfold sq_high. change sq_phase with 31%Z.
  pose proof (Z.div_mod count 62 ltac:(discriminate)) as E.
  pose proof (Z.mod_pos_bound count 62 ltac:(reflexivity)) as B.
  destruct (Z.ltb_spec (count mod 62) 31) as [L | G].
  - rewrite <- (Z.div_unique count 31 (2 * (count / 62)) (count mod 62));
      [ | left; lia | lia ].
    rewrite Z.mul_comm, Z_mod_mult. reflexivity.
  - rewrite <- (Z.div_unique count 31 (2 * (count / 62) + 1)
                  (count mod 62 - 31)); [ | left; lia | lia ].
    rewrite Z.add_comm, Z.mul_comm, Z_mod_plus_full. reflexivity.
Qed.

Lemma records_nth (ins : list Input) (s : SqState) (n : nat) (r : LeadRecord) :
  nth_error (records (snd (sq_run ins s))) n = Some r ->
  r = sq_record (u32 (sq_count s + Z.of_nat (S n))).
Proof.
  rewrite sq_run_records.
  generalize (length (records (snd (sq_run ins s)))). intros k H.
  rewrite nth_error_map in H.
  destruct (nth_error (seq 1 k) n) as [ m | ] eqn:E; [ | discriminate ].
  cbn [option_map] in H. injection H as <-.
  assert (Hn : (n < length (seq 1 k))%nat)
    by (apply nth_error_Some; congruence).
  rewrite length_seq in Hn.
  apply (nth_error_nth _ _ 0%nat) in E.
  rewrite seq_nth in E by assumption. now subst m.
Qed.

End SquareWave.

(** X9. The records of the square-wave sketch depend on their position
    only, not on the timing of the invocations: counted from 1 and below
    2^32, record k carries lead2 = 1 when k mod 62 < 31 and lead2 = 0
    otherwise, and 0 for the five other leads.  The wave so has a period of
    62 ticks, low for 31 ticks and high for 31, except that the first high
    phase has 30 ticks (records 1 to 30). *)
Theorem X9_square_wave_by_position (ins : list Input) (n : nat)
        (r : LeadRecord) :
  nth_error (records (snd (sq_run ins sq_init))) n = Some r ->
  (Z.of_nat n + 1 < 2 ^ 32)%Z ->
  r = mkLeadRecord 0 (if ((Z.of_nat n + 1) mod 62 <? 31)%Z then lit 1 1 else 0)
                   0 0 0 0.
Proof.
  intros H B. apply records_nth in H. cbn [sq_init sq_count] in H.
  rewrite Nat2Z.inj_succ, Z.add_0_l in H.
  change (2 ^ 32)%Z with 4294967296%Z in B.
  rewrite u32_small in H by lia.
  rewrite H. unfold sq_record. rewrite sq_high_mod by lia.
  now rewrite <- Z.add_1_r.
Qed.

Lemma X9_square_wave_by_position_witness :
  map lead2
      (records (snd (sq_run (map at_us [0; 8000; 16000; 16001; 40000]%Z)
                            sq_init))) = [lit 1 1; lit 1 1; lit 1 1].
Proof.
  assert (E : forall n r,
             nth_error
               (records (snd (sq_run (map at_us [0; 8000; 16000; 16001; 40000]%Z)
                                     sq_init))) n = Some r ->
             (n < 3)%nat -> lead2 r = lit 1 1).
  { intros n r H L.
    rewrite (X9_square_wave_by_position _ n r H).
    - destruct n as [ | [ | [ | n ] ] ]; [ reflexivity .. | lia ].
    - change (2 ^ 32)%Z with 4294967296%Z. lia. }
  assert (R : exists r0 r1 r2,
             records (snd (sq_run (map at_us [0; 8000; 16000; 16001; 40000]%Z)
                                  sq_init)) = [r0; r1; r2]).
  { eexists. eexists. eexists. vm_compute. reflexivity. }
  destruct R as (r0 & r1 & r2 & R). rewrite R in *. cbn [map].
  rewrite (E 0%nat r0 eq_refl), (E 1%nat r1 eq_refl), (E 2%nat r2 eq_refl);
    [ reflexivity | lia .. ].
Defined.

(** X10. The square-wave sketch does not derive its leads: it prints lead3,
    aVR, aVL and aVF as 0 whatever lead2 is.  A record of it satisfies the
    lead relations (lead3 = lead2 - lead1 and the others) exactly when its
    lead2 is 0, that is in the low phase only. *)
Theorem X10_square_wave_not_derived (ins : list Input) (s : SqState) :
  Forall (fun r => (einthoven r <-> lead2 r = 0) /\
                   (lead2 r = 0 \/ lead2 r = lit 1 1) /\
                   lead1 r = 0 /\ lead3 r = 0 /\
                   avr r = 0 /\ avl r = 0 /\ avf r = 0)
         (records (snd (sq_run ins s))).
Proof.
  apply Forall_forall. intros r Hr.
  apply In_nth_error in Hr. destruct Hr as [n Hn].
  apply records_nth in Hn. subst r. unfold sq_record.
  cbn [lead1 lead2 lead3 avr avl avf].
  destruct (sq_high _).
  - split; [ | repeat split; now right ].
    unfold einthoven. cbn [lead1 lead2 lead3 avr avl avf]. split.
    + intros (E & _). apply (f_equal this) in E. vm_compute in E.
      discriminate E.
    + discriminate.
  - split; [ | repeat split; now left ].
    unfold einthoven. cbn [lead1 lead2 lead3 avr avl avf].
    split; [ reflexivity | ]. intros _.
    repeat split; apply Qc_is_canon; reflexivity.
Qed.

(* ================================================================== *)
(** * The visualizer: units and the fallback parse *)

Section Units.


Lemma fl64_err53 (x : Qc) :
  (Qabs (this (fl64 x) - this x)
   <= (1 # 2 ^ 53) * Qabs (this x) + (1 # 2 ^ 1075))%Q.
Proof. exact (round_to_err 53 (-1074) x). Qed.

(** An operation whose exact result is at most [2^1023] in magnitude returns
    a finite number. *)
Lemma js_result_finite (x : Qc) :
  Qc_abs x <= lit (2 ^ 1023) 1 -> js_result x = JSNumber (fl64 x).
Proof.
  intro H. unfold js_result.
  assert (L : Qc_abs (fl64 x) < lit (2 ^ 1024) 1).
  { revert H. unfold Qcle, Qclt. rewrite !this_abs. qc_push.
    pose proof (fl64_err53 x) as E. apply Qabs_Qle_condition in E.
    revert E. generalize (this (fl64 x)) (this x). clear. intros r x E H.
    eval_pow. apply Qabs_Qlt_condition.
    abs_cases x; lra. }
  apply Qcltb_lt in L. now rewrite L.
Qed.

(** The three operations of the conversion of ADC counts, for a count of
    magnitude at most [2^1000]: none overflows, and the result is within
    [2^-49 |x| + 2^-1064] of [x * 5000 / 1023]. *)
Lemma adc_chain (x : Qc) :
  Qc_abs x <= lit (2 ^ 1000) 1 ->
  let r1 := fl64 (x * VREF) in
  let r2 := fl64 (r1 / ADC_MAX) in
  let r3 := fl64 (r2 * lit 1000 1) in
  Qc_abs (x * VREF) <= lit (2 ^ 1023) 1 /\
  Qc_abs (r1 / ADC_MAX) <= lit (2 ^ 1023) 1 /\
  Qc_abs (r2 * lit 1000 1) <= lit (2 ^ 1023) 1 /\
  Qc_abs (r3 - x * lit 5000 1023)
    <= lit 1 (2 ^ 49) * Qc_abs x + lit 1 (2 ^ 1064).
Proof.
  intros H r1 r2 r3.
  pose proof (fl64_err53 (x * VREF)) as E1.
  pose proof (fl64_err53 (r1 / ADC_MAX)) as E2.
  pose proof (fl64_err53 (r2 * lit 1000 1)) as E3.
  fold r1 in E1. fold r2 in E2. fold r3 in E3.
  apply Qabs_Qle_condition in E1. apply Qabs_Qle_condition in E2.
  apply Qabs_Qle_condition in E3.
  clearbody r1 r2 r3.
  revert H E1 E2 E3. unfold Qcle, VREF, ADC_MAX.
  qc_push. rewrite !this_abs. qc_push.
  generalize (this r1) (this r2) (this r3) (this x). clear.
  intros r1 r2 r3 x.
  setoid_replace (r1 / (1023 # 1))%Q with (r1 * (1 # 1023))%Q by field.
  intros H E1 E2 E3. eval_pow.
  abs_cases x; abs_cases (x * (5 # 1))%Q; abs_cases (r1 * (1 # 1023))%Q;
    abs_cases (r2 * (1000 # 1))%Q;
    (repeat split; [ lra | lra | lra | apply Qabs_Qle_condition; lra ]).
Qed.

Lemma adc_value (x : Qc) :
  Qc_abs x <= lit (2 ^ 1000) 1 ->
  valueToMv "adc" (JSNumber x) =
    JSNumber (fl64 (fl64 (fl64 (x * VREF) / ADC_MAX) * lit 1000 1)).
Proof.
  intro H. destruct (adc_chain x H) as (B1 & B2 & B3 & _).
  cbn [valueToMv String.eqb Ascii.eqb Bool.eqb]. cbv zeta.
  cbn [js_times]. rewrite (js_result_finite _ B1).
  cbn [js_over]. rewrite (js_result_finite _ B2).
  cbn [js_times]. now rewrite (js_result_finite _ B3).
Qed.

Lemma times_mono (a b c : Qc) : 0 < c -> a <= b -> a * c <= b * c.
Proof.
  unfold Qclt, Qcle. qc_push. change (this 0) with 0%Q. intros C H.
  apply Qmult_le_compat_r; lra.
Qed.

Lemma over_mono (a b c : Qc) : 0 < c -> a <= b -> a / c <= b / c.
Proof.
  unfold Qclt, Qcle. qc_push. change (this 0) with 0%Q. intros C H.
  unfold Qdiv. apply Qmult_le_compat_r; [ exact H | ].
  apply Qlt_le_weak, Qinv_lt_0_compat, C.
Qed.

End Units.

(** X11. [valueToMv] in binary64.  NaN and a value that is not a number
    give 0 in every unit setting.  With a unit string other than "adc" a
    number, finite or infinite, is returned as it is.  With "adc" an infinity
    stays the infinity, and a finite x of magnitude at most 2^1000 gives a
    finite number within 2^-49 |x| + 2^-1064 of x * 5000 / 1023 (three
    rounded operations, none of which overflows); 0 gives 0 and 1023 gives
    5000 exactly, and on the ADC counts 0..1023 the result is non-negative,
    strictly increasing and at most 5000.  On the binary64 numbers at large
    the conversion is monotone (x <= y gives results in that order, for
    magnitudes up to 2^1000) but not one to one: 511 + 2^-44 and 511 + 2^-43
    give the same number. *)
Theorem X11_valueToMv_units :
  (forall units, valueToMv units JSNaN = JSNumber 0 /\
                 valueToMv units JSNotNumber = JSNumber 0) /\
  (forall units x s, String.eqb units "adc" = false ->
                     valueToMv units (JSNumber x) = JSNumber x /\
                     valueToMv units (JSInfinity s) = JSInfinity s) /\
  (forall s, valueToMv "adc" (JSInfinity s) = JSInfinity s) /\
  (forall x, Qc_abs x <= lit (2 ^ 1000) 1 ->
             exists y, valueToMv "adc" (JSNumber x) = JSNumber y /\
                       Qc_abs (y - x * lit 5000 1023)
                         <= lit 1 (2 ^ 49) * Qc_abs x + lit 1 (2 ^ 1064)) /\
  (forall x y, x <= y ->
               Qc_abs x <= lit (2 ^ 1000) 1 -> Qc_abs y <= lit (2 ^ 1000) 1 ->
               exists a b,
                 valueToMv "adc" (JSNumber x) = JSNumber a /\
                 valueToMv "adc" (JSNumber y) = JSNumber b /\ a <= b) /\
  (forall n m : Z, (0 <= n < m)%Z -> (m <= 1023)%Z ->
                   exists a b,
                     valueToMv "adc" (JSNumber (of_int n)) = JSNumber a /\
                     valueToMv "adc" (JSNumber (of_int m)) = JSNumber b /\
                     0 <= a /\ a < b /\ b <= lit 5000 1) /\
  valueToMv "adc" (JSNumber 0) = JSNumber 0 /\
  valueToMv "adc" (JSNumber ADC_MAX) = JSNumber (lit 5000 1) /\
  (let x := lit (511 * 2 ^ 44 + 1) (2 ^ 44) in
   let y := lit (511 * 2 ^ 43 + 1) (2 ^ 43) in
   x < y /\ fl64 x = x /\ fl64 y = y /\
   valueToMv "adc" (JSNumber x) = valueToMv "adc" (JSNumber y)).
Proof.
  assert (Z0 : valueToMv "adc" (JSNumber 0) = JSNumber 0).
  { rewrite adc_value by (vm_compute; discriminate).
    apply f_equal. apply Qc_is_canon. vm_compute. reflexivity. }
  assert (Z1 : valueToMv "adc" (JSNumber ADC_MAX) = JSNumber (lit 5000 1)).
  { rewrite adc_value by (vm_compute; discriminate).
    apply f_equal. apply Qc_is_canon. vm_compute. reflexivity. }
  split; [ | split; [ | split; [ | split; [ | split; [ | split; [ | split; [ | split ] ] ] ] ] ] ].
  - intro units. split; reflexivity.
  - intros units x s H. cbn [valueToMv]. rewrite H. split; reflexivity.
  - intro s. reflexivity.
  - intros x H. eexists. split; [ apply (adc_value x H) | ].
    apply (adc_chain x H).
  - intros x y H Bx By. eexists. eexists.
    split; [ apply (adc_value x Bx) | ]. split; [ apply (adc_value y By) | ].
    apply round_to_mono; [ lia | ]. apply times_mono; [ reflexivity | ].
    apply round_to_mono; [ lia | ]. apply over_mono; [ reflexivity | ].
    apply round_to_mono; [ lia | ]. apply times_mono; [ reflexivity | ].
    exact H.
  - intros n m Hnm Hm.
    assert (Qn : (0 <= inject_Z n)%Q)
      by (change 0%Q with (inject_Z 0); rewrite <- Zle_Qle; lia).
    assert (Qm : (inject_Z m <= 1023)%Q)
      by (change 1023%Q with (inject_Z 1023); rewrite <- Zle_Qle; lia).
    assert (Qd : (inject_Z n + 1 <= inject_Z m)%Q).
    { change 1%Q with (inject_Z 1). rewrite <- inject_Z_plus.
      rewrite <- Zle_Qle. lia. }
    assert (Q1 : (n <> 0%Z -> 1 <= inject_Z n)%Q).
    { intro N. change 1%Q with (inject_Z 1). rewrite <- Zle_Qle. lia. }
    assert (Q2 : (m <> 1023%Z -> inject_Z m <= 1022)%Q).
    { intro N. change 1022%Q with (inject_Z 1022). rewrite <- Zle_Qle. lia. }
    assert (Bn : Qc_abs (of_int n) <= lit (2 ^ 1000) 1).
    { unfold Qcle, of_int. rewrite this_abs. qc_push. eval_pow.
      apply Qabs_Qle_condition. split; lra. }
    assert (Bm : Qc_abs (of_int m) <= lit (2 ^ 1000) 1).
    { unfold Qcle, of_int. rewrite this_abs. qc_push. eval_pow.
      apply Qabs_Qle_condition. split; lra. }
    exists (fl64 (fl64 (fl64 (of_int n * VREF) / ADC_MAX) * lit 1000 1)),
           (fl64 (fl64 (fl64 (of_int m * VREF) / ADC_MAX) * lit 1000 1)).
    split; [ apply (adc_value _ Bn) | ]. split; [ apply (adc_value _ Bm) | ].
    destruct (adc_chain _ Bn) as (_ & _ & _ & En).
    destruct (adc_chain _ Bm) as (_ & _ & _ & Em).
    cbv zeta in En, Em.
    assert (A0 : n = 0%Z ->
                 fl64 (fl64 (fl64 (of_int n * VREF) / ADC_MAX) * lit 1000 1)
                 = 0).
    { intros ->. apply Qc_is_canon. vm_compute. reflexivity. }
    assert (A1 : m = 1023%Z ->
                 fl64 (fl64 (fl64 (of_int m * VREF) / ADC_MAX) * lit 1000 1)
                 = lit 5000 1).
    { intros ->. apply Qc_is_canon. vm_compute. reflexivity. }
    revert En Em A0 A1.
    generalize (fl64 (fl64 (fl64 (of_int n * VREF) / ADC_MAX) * lit 1000 1)).
    generalize (fl64 (fl64 (fl64 (of_int m * VREF) / ADC_MAX) * lit 1000 1)).
    intros b a En Em A0 A1.
    revert En Em. unfold Qcle, Qclt, of_int.
    qc_push. rewrite !this_abs. qc_push.
    intros En Em. apply Qabs_Qle_condition in En.
    apply Qabs_Qle_condition in Em.
    rewrite (Qabs_pos (inject_Z n)) in En by exact Qn.
    rewrite (Qabs_pos (inject_Z m)) in Em by lra.
    eval_pow.
    destruct (Z.eq_dec n 0) as [N0 | N0];
      [ rewrite (A0 N0) in * | specialize (Q1 N0) ];
      (destruct (Z.eq_dec m 1023) as [M1 | M1];
       [ rewrite (A1 M1) in * | specialize (Q2 M1) ]);
      change (this 0) with 0%Q in *; qc_push;
      repeat split; lra.
  - exact Z0.
  - exact Z1.
  - cbv zeta. split; [ reflexivity | ].
    split; [ apply Qc_is_canon; vm_compute; reflexivity | ].
    split; [ apply Qc_is_canon; vm_compute; reflexivity | ].
    rewrite !adc_value by (vm_compute; discriminate).
    apply f_equal. apply Qc_is_canon. vm_compute. reflexivity.
Qed.

Lemma X11_valueToMv_units_witness :
  valueToMv "mv" (JSNumber (lit 3 2)) = JSNumber (lit 3 2) /\
  (exists y, valueToMv "adc" (JSNumber (lit 1 10)) = JSNumber y /\
             Qc_abs (y - lit 1 10 * lit 5000 1023)
               <= lit 1 (2 ^ 49) * Qc_abs (lit 1 10) + lit 1 (2 ^ 1064)) /\
  (exists a b, valueToMv "adc" (JSNumber (of_int 100)) = JSNumber a /\
               valueToMv "adc" (JSNumber (of_int 101)) = JSNumber b /\
               0 <= a /\ a < b /\ b <= lit 5000 1).
Proof.
  destruct X11_valueToMv_units as (_ & A & _ & B & _ & C & _).
  split; [ | split ].
  - apply (A "mv"%string (lit 3 2) false). reflexivity.
  - apply B. vm_compute. discriminate.
  - apply C; lia.
Defined.



(* ================================================================== *)
(** * The visualizer: the ring of samples *)

Section RingBuffer.

Lemma length_upd {A : Type} (l : list A) (i : nat) (v : A) :
  List.length (upd l i v) = List.length l.
Proof.
  revert i. induction l as [ | h t IH ]; intros [ | j ]; simpl; auto.
Qed.

Lemma nth_upd_same {A : Type} (l : list A) (i : nat) (v d : A) :
  (i < List.length l)%nat -> nth i (upd l i v) d = v.
Proof.
  revert i. induction l as [ | h t IH ]; intros [ | j ] H; simpl in *;
    try lia; auto. apply IH. lia.
Qed.

Lemma nth_upd_other {A : Type} (l : list A) (i j : nat) (v d : A) :
  i <> j -> nth j (upd l i v) d = nth j l d.
Proof.
  revert i j. induction l as [ | h t IH ]; intros [ | i ] [ | j ] H; simpl;
    try reflexivity; try congruence. apply IH. congruence.
Qed.

Lemma mod_below_twice (a n : nat) :
  (0 < n)%nat -> (a < 2 * n)%nat ->
  a mod n = if (a <? n)%nat then a else (a - n)%nat.
Proof.
  intros Hn Ha. destruct (Nat.ltb_spec a n) as [L | G].
  - now apply Nat.mod_small.
  - symmetry. apply (Nat.mod_unique a n 1); lia.
Qed.

Lemma nth_map_in {A B : Type} (f : A -> B) (l : list A) (s : nat) (d : B)
      (d' : A) :
  (s < List.length l)%nat -> nth s (map f l) d = f (nth s l d').
Proof.
  revert s. induction l as [ | h t IH ]; intros [ | s ] H; simpl in *;
    try lia; auto. apply IH. lia.
Qed.

Lemma length_ring_read (b : list Qc) (w n : nat) :
  List.length (ring_read b w n) = n.
Proof. unfold ring_read. now rewrite length_map, length_seq. Qed.

Lemma nth_ring_read (b : list Qc) (w n s : nat) :
  (s < n)%nat -> nth s (ring_read b w n) 0 = nth ((w + s) mod n) b 0.
Proof.
  intro H. unfold ring_read.
  rewrite (nth_map_in _ _ _ _ 0%nat) by now rewrite length_seq.
  now rewrite seq_nth.
Qed.

(** Storing at the write index and advancing it drops the oldest sample of
    the window and appends the new one. *)
Lemma ring_read_push (b : list Qc) (w n : nat) (v : Qc) :
  List.length b = n -> (w < n)%nat ->
  ring_read (upd b w v) ((w + 1) mod n) n = tl (ring_read b w n) ++ [v].
Proof.
  intros Hb Hw.
  assert (Lt : List.length (tl (ring_read b w n)) = (n - 1)%nat).
  { pose proof (length_ring_read b w n) as L.
    destruct (ring_read b w n); simpl in *; lia. }
  apply (nth_ext _ _ 0 0).
  - rewrite length_ring_read, length_app, Lt. simpl. lia.
  - rewrite length_ring_read. intros s Hs.
    rewrite nth_ring_read by assumption.
    rewrite Nat.Div0.add_mod_idemp_l.
    destruct (Nat.eq_dec s (n - 1)) as [E | N].
    + subst s. replace (w + 1 + (n - 1))%nat with (w + n)%nat by lia.
      rewrite (mod_below_twice (w + n) n) by lia.
      destruct (Nat.ltb_spec (w + n) n) as [ | _ ]; [ lia | ].
      replace (w + n - n)%nat with w by lia.
      rewrite nth_upd_same by lia.
      rewrite app_nth2 by lia. rewrite Lt, Nat.sub_diag. reflexivity.
    + rewrite app_nth1 by lia.
      assert (T : nth s (tl (ring_read b w n)) 0
                  = nth (S s) (ring_read b w n) 0).
      { destruct (ring_read b w n); [ now destruct s | reflexivity ]. }
      rewrite T, nth_ring_read by lia.
      replace (w + S s)%nat with (w + 1 + s)%nat by lia.
      rewrite (mod_below_twice (w + 1 + s) n) by lia.
      destruct (Nat.ltb_spec (w + 1 + s) n); apply nth_upd_other; lia.
Qed.

Lemma ring_read_zeros (n : nat) : ring_read (repeat 0 n) 0 n = repeat 0 n.
Proof.
  apply (nth_ext _ _ 0 0).
  - now rewrite length_ring_read, repeat_length.
  - rewrite length_ring_read. intros s Hs.
    rewrite nth_ring_read by assumption.
    rewrite !nth_repeat. reflexivity.
Qed.

Lemma lastn_snoc {A : Type} (n : nat) (l : list A) (v : A) :
  (1 <= n)%nat -> (n <= List.length l)%nat ->
  tl (lastn n l) ++ [v] = lastn n (l ++ [v]).
Proof.
  intros H1 H2. unfold lastn. rewrite length_app. cbn [List.length].
  replace (List.length l + 1 - n)%nat with (S (List.length l - n)) by lia.
  rewrite skipn_app.
  replace (S (List.length l - n) - List.length l)%nat with 0%nat by lia.
  cbn [skipn]. f_equal.
  generalize (List.length l - n)%nat as k. clear. intro k. revert l.
  induction k as [ | k IH ]; intro l.
  - now destruct l.
  - destruct l as [ | a l ]; [ reflexivity | ]. cbn [skipn] in *. apply IH.
Qed.

End RingBuffer.

Section RingOfLeads.

Variables (units : string) (sampleRate secondsWindow : Qc).

Let n := window_samples sampleRate secondsWindow.

Lemma window_samples_pos : (1 <= n)%nat.
Proof. subst n. unfold window_samples. lia. Qed.

Lemma storable_cell (v : JSValue) :
  storable units v -> to_float32 (valueToMv units v) = Some (cell units v).
Proof.
  unfold storable, cell.
  destruct (to_float32 (valueToMv units v)); [ reflexivity | congruence ].
Qed.

(** The stores of one line into buffers that are all there: buffer [k] of
    the range gets the cell of value [k - i] at the write index, the other
    buffers are left alone. *)
Lemma write_leads_nth_error (w samples : nat) (arr : list JSValue) :
  forall (i : nat) (bufs : list (list Qc)),
    Forall (storable units) arr ->
    (i + List.length arr <= List.length bufs)%nat ->
    exists bufs',
      write_leads units w samples i arr bufs = Some bufs' /\
      List.length bufs' = List.length bufs /\
      forall k,
        nth_error bufs' k =
          if ((i <=? k) && (k <? i + List.length arr))%nat
          then option_map
                 (fun b => upd b w (cell units (nth (k - i) arr JSNaN)))
                 (nth_error bufs k)
          else nth_error bufs k.
Proof.
  induction arr as [ | v rest IH ]; intros i bufs F H.
  - exists bufs. cbn [write_leads List.length].
    split; [ reflexivity | ]. split; [ reflexivity | ]. intro k.
    destruct (Nat.leb_spec i k); destruct (Nat.ltb_spec k (i + 0));
      cbn [andb]; try reflexivity; lia.
  - inversion F as [ | ? ? Sv Fr ]; subst.
    cbn [write_leads]. cbn [List.length] in H.
    rewrite (storable_cell v Sv).
    destruct (nth_error bufs i) as [ b | ] eqn:Eb.
    2:{ apply nth_error_None in Eb. lia. }
    rewrite Eb.
    assert (L : List.length (upd bufs i (upd b w (cell units v)))
                = List.length bufs) by apply length_upd.
    destruct (IH (S i) (upd bufs i (upd b w (cell units v))) Fr)
      as (bufs' & W & A & B).
    { rewrite L. lia. }
    exists bufs'. split; [ exact W | ]. split; [ now rewrite A, L | ].
    intro k. rewrite B. cbn [List.length].
    destruct (Nat.eq_dec k i) as [ -> | N ].
    + destruct (Nat.leb_spec (S i) i); [ lia | ]. cbn [andb].
      destruct (Nat.leb_spec i i); [ | lia ].
      destruct (Nat.ltb_spec i (i + S (List.length rest))); [ | lia ].
      cbn [andb]. rewrite (nth_error_upd_same bufs i _ b Eb), Eb.
      cbn [option_map]. now rewrite Nat.sub_diag.
    + rewrite nth_error_upd_other by congruence.
      destruct (Nat.leb_spec (S i) k); destruct (Nat.leb_spec i k);
        destruct (Nat.ltb_spec k (S i + List.length rest));
        destruct (Nat.ltb_spec k (i + S (List.length rest)));
        cbn [andb]; try reflexivity; try lia.
      replace (k - i)%nat with (S (k - S i)) by lia. reflexivity.
Qed.

Lemma init_ring_holds :
  ring_holds units n [] (init_ring sampleRate secondsWindow).
Proof.
  pose proof window_samples_pos as P.
  unfold ring_holds, init_ring. fold n. cbn [buffers writeIndex].
  split; [ reflexivity | ]. split.
  - cbn [List.length]. symmetry. apply Nat.mod_small. lia.
  - intros k Hk. exists (repeat 0 n).
    split; [ | split ].
    + do 6 (destruct k as [ | k ]; [ reflexivity | ]). lia.
    + apply repeat_length.
    + rewrite ring_read_zeros. unfold lastn, lead_column. cbn [map].
      rewrite app_nil_r, repeat_length, Nat.sub_diag. reflexivity.
Qed.

Lemma ring_samples_holds (h : list (list JSValue)) (r : Ring) (fallback : nat) :
  ring_holds units n h r -> ring_samples (buffers r) fallback = n.
Proof.
  pose proof window_samples_pos as P.
  intros (L & _ & B). destruct (B 0%nat ltac:(lia)) as (b & E & Lb & _).
  unfold ring_samples. destruct (buffers r) as [ | b0 t ]; [ discriminate | ].
  cbn in E. injection E as ->. rewrite Lb.
  destruct (Nat.eqb_spec n 0); [ lia | reflexivity ].
Qed.

Lemma push_sample_holds (h : list (list JSValue)) (arr : list JSValue)
      (r : Ring) :
  ring_holds units n h r -> line_ok units arr ->
  exists r', push_sample units sampleRate secondsWindow arr r = Some r' /\
             ring_holds units n (h ++ [arr]) r'.
Proof.
  pose proof window_samples_pos as P.
  intros Hr [La Fa]. pose proof (ring_samples_holds h r n Hr) as S.
  destruct Hr as (L & W & B).
  unfold push_sample. fold n. rewrite S.
  assert (Wn : (writeIndex r < n)%nat)
    by (rewrite W; apply Nat.mod_upper_bound; lia).
  destruct (write_leads_nth_error (writeIndex r) n arr 0 (buffers r) Fa)
    as (bufs' & E & A & N); [ lia | ].
  rewrite E. cbn [option_map]. eexists. split; [ reflexivity | ].
  unfold ring_holds. cbn [buffers writeIndex].
  split; [ | split ].
  - now rewrite A.
  - rewrite W, length_app. cbn [List.length].
    now rewrite Nat.Div0.add_mod_idemp_l.
  - intros k Hk. destruct (B k Hk) as (b & Eb & Lb & R).
    exists (upd b (writeIndex r) (cell units (nth k arr JSNaN))).
    split; [ | split ].
    + rewrite N, Eb. cbn [Nat.leb andb Nat.add]. rewrite La.
      destruct (Nat.ltb_spec k 6); [ | lia ].
      cbn [option_map]. now rewrite Nat.sub_0_r.
    + now rewrite length_upd.
    + rewrite ring_read_push by assumption. rewrite R.
      rewrite lastn_snoc by (rewrite ?length_app, ?repeat_length; lia).
      unfold lead_column. now rewrite map_app, app_assoc.
Qed.

Lemma push_all_holds (arrs h : list (list JSValue)) (r : Ring) :
  ring_holds units n h r ->
  Forall (line_ok units) arrs ->
  exists r', push_all units sampleRate secondsWindow arrs r = Some r' /\
             ring_holds units n (h ++ arrs) r'.
Proof.
  intros Hr F. revert h r Hr.
  induction F as [ | arr rest La Frest IH ]; intros h r Hr.
  - exists r. split; [ reflexivity | ]. now rewrite app_nil_r.
  - cbn [push_all].
    destruct (push_sample_holds h arr r Hr La) as (r1 & E1 & H1).
    rewrite E1.
    replace (h ++ arr :: rest) with ((h ++ [arr]) ++ rest)
      by now rewrite <- app_assoc.
    now apply IH.
Qed.

End RingOfLeads.

(** A finite number of magnitude at most [2^127] is stored, as the binary32
    number nearest to it, when the units are millivolts. *)
Lemma storable_mv (x : Qc) :
  Qc_abs x <= lit (2 ^ 127) 1 ->
  to_float32 (valueToMv "mv" (JSNumber x)) = Some (fl32 x).
Proof.
  intro H. cbn [valueToMv String.eqb Ascii.eqb Bool.eqb to_float32]. cbv zeta.
  assert (L : Qc_abs (fl32 x) < lit (2 ^ 128) 1).
  { revert H. unfold Qcle, Qclt. rewrite !this_abs. qc_push.
    pose proof (fl32_err x) as E. apply Qabs_Qle_condition in E.
    revert E. generalize (this (fl32 x)) (this x). clear. intros r x E H.
    eval_pow. apply Qabs_Qlt_condition.
    abs_cases x; lra. }
  apply Qcltb_lt in L. now rewrite L.
Qed.

(** X13. The ring of samples.  After the effect that initializes the
    buffers, let the parsed lines [arrs], of six values each, be stored one
    after the other, each value being one that the typed arrays hold as a
    finite number.  Then for each of the six leads the order in which
    [drawLeadTrace] visits the buffer, starting at the write index and
    wrapping around, yields the last [n] stored cells of that lead, oldest
    first, after as many zeros as the buffer still holds from its start
    ([n] being the window length, at least 1); a cell holds the binary32
    number nearest to the converted value, not the value itself.  The write
    index is the number of stored lines modulo [n].  With the units "mv" every
    finite number of magnitude at most 2^127 is such a value, and its cell is
    its binary32 rounding; an infinity is not. *)
Theorem X13_ring_window_is_history (units : string)
        (sampleRate secondsWindow : Qc) (arrs : list (list JSValue))
        (k : nat) :
  Forall (line_ok units) arrs -> (k < 6)%nat ->
  let n := window_samples sampleRate secondsWindow in
  (exists r,
      push_all units sampleRate secondsWindow arrs
               (init_ring sampleRate secondsWindow) = Some r /\
      ring_window r k
        = Some (lastn n (repeat 0 n ++ lead_column units k arrs)) /\
      writeIndex r = (List.length arrs mod n)%nat) /\
  (1 <= n)%nat /\
  (forall x, Qc_abs x <= lit (2 ^ 127) 1 ->
             storable "mv" (JSNumber x) /\
             cell "mv" (JSNumber x) = fl32 x) /\
  (forall s, ~ storable units (JSInfinity s)).
Proof.
  intros F Hk n.
  destruct (push_all_holds units sampleRate secondsWindow arrs [] _
              (init_ring_holds units sampleRate secondsWindow) F)
    as (r & E & H).
  cbn [app] in H. fold n in H.
  pose proof (ring_samples_holds units sampleRate secondsWindow arrs r 1 H) as S.
  fold n in S.
  split; [ | split; [ | split ] ].
  - exists r. split; [ exact E | ].
    destruct H as (L & W & B). destruct (B k Hk) as (b & Eb & Lb & R).
    split; [ | exact W ].
    unfold ring_window. now rewrite S, Eb, <- R.
  - apply window_samples_pos.
  - intros x Hx. unfold storable, cell. rewrite (storable_mv x Hx).
    split; [ discriminate | reflexivity ].
  - intros s H1. apply H1. unfold valueToMv.
    destruct (String.eqb units "adc"); reflexivity.
Qed.

Lemma X13_ring_window_is_history_witness :
  let line := repeat (JSNumber (fl64 (lit 1 10))) 6 in
  exists r,
    push_all "mv" (lit 1 1) (lit 3 1)
      [repeat (JSNumber (of_int 1)) 6; repeat (JSNumber (of_int 2)) 6;
       repeat (JSNumber (of_int 3)) 6; repeat (JSNumber (of_int 4)) 6; line]
      (init_ring (lit 1 1) (lit 3 1)) = Some r /\
    ring_window r 4 = Some [of_int 3; of_int 4; lit 13421773 (2 ^ 27)].
Proof.
  cbv zeta.
  destruct (X13_ring_window_is_history "mv" (lit 1 1) (lit 3 1)
              [repeat (JSNumber (of_int 1)) 6; repeat (JSNumber (of_int 2)) 6;
               repeat (JSNumber (of_int 3)) 6; repeat (JSNumber (of_int 4)) 6;
               repeat (JSNumber (fl64 (lit 1 10))) 6] 4)
    as ((r & E & W & _) & _).
  - repeat constructor; vm_compute; discriminate.
  - lia.
  - exists r. split; [ exact E | ]. rewrite W. apply f_equal.
    cbv zeta. vm_compute lastn.
    repeat (apply f_equal2; [ apply Qc_is_canon; vm_compute; reflexivity | ]).
    reflexivity.
Defined.

(* ================================================================== *)
(** * The visualizer: the points of the traces *)

Section Traces.





Variables (ymap : Qc -> Qc) (xStep limit : Qc).
Hypothesis (Step : 0 <= xStep).


End Traces.



Section Report.




End Report.



(* ================================================================== *)
(** * The PNG export *)

Section PngExport.

Lemma fold_heights (cvs : list Canvas) (y : Z) :
  fold_left (fun s c => (s + cv_height c)%Z) cvs y =
    (y + fold_left (fun s c => (s + cv_height c)%Z) cvs 0)%Z.
Proof.
  revert y. induction cvs as [ | c rest IH ]; intro y.
  - cbn. lia.
  - cbn [fold_left]. rewrite IH, (IH (0 + cv_height c)%Z). lia.
Qed.

(** The stack tiles the span from [y] on: each canvas starts where the one
    before it ends. *)
Lemma stack_from_tiles (cvs : list Canvas) :
  forall (y : Z) (i : nat) (c : Canvas) (yc : Z),
    nth_error (stack_from y cvs) i = Some (c, yc) ->
    nth_error cvs i = Some c /\
    yc = (y + fold_left (fun s c => (s + cv_height c)%Z) (firstn i cvs) 0)%Z.
Proof.
  induction cvs as [ | c0 rest IH ]; intros y i c yc H.
  - destruct i; discriminate H.
  - destruct i as [ | i ].
    + cbn in H. injection H as <- <-. split; [ reflexivity | cbn; lia ].
    + cbn [stack_from nth_error] in H. destruct (IH _ _ _ _ H) as [A B].
      split; [ exact A | ]. cbn [firstn fold_left].
      rewrite (fold_heights _ (0 + cv_height c0)%Z). lia.
Qed.

End PngExport.

(** X18. [exportPNG] returns without an image when no canvas is mounted.
    Otherwise the output has the width of the first mounted canvas and the
    sum of the heights of all mounted ones, and the canvases are drawn in
    order one below the other: each at the sum of the heights of those before
    it, so that they tile the output without gap or overlap; unmounted
    entries are skipped. *)
Theorem X18_export_stacks_canvases (refs : list (option Canvas)) :
  let cvs := flat_map (fun o => match o with Some c => [c] | None => [] end)
                      refs in
  (cvs = [] -> exportPNG refs = None) /\
  (forall c0 rest, cvs = c0 :: rest ->
     exists drawn,
       exportPNG refs =
         Some (cv_width c0,
               fold_left (fun s c => (s + cv_height c)%Z) cvs 0%Z, drawn) /\
       map fst drawn = cvs /\
       forall i c y,
         nth_error drawn i = Some (c, y) ->
         y = fold_left (fun s c => (s + cv_height c)%Z) (firstn i cvs) 0%Z /\
         (y + cv_height c)%Z =
           fold_left (fun s c => (s + cv_height c)%Z) (firstn (S i) cvs) 0%Z).
Proof.
  intro cvs. unfold exportPNG. fold cvs. split.
  - intros ->. reflexivity.
  - intros c0 rest E. rewrite E. exists (stack_from 0 (c0 :: rest)).
    split; [ reflexivity | ]. split.
    + generalize 0%Z. generalize (c0 :: rest). clear.
      induction l as [ | c t IH ]; intro y; [ reflexivity | ].
      cbn [stack_from map fst]. now rewrite IH.
    + intros i c y H. destruct (stack_from_tiles _ _ _ _ _ H) as [A B].
      split; [ rewrite B; lia | ].
      rewrite B. clear - A.
      revert i A. generalize (c0 :: rest). clear.
      induction l as [ | h t IH ]; intros i A.
      * destruct i; discriminate A.
      * destruct i as [ | i ].
        -- cbn in A. injection A as ->. cbn. lia.
        -- cbn [nth_error] in A. cbn [firstn fold_left].
           rewrite (fold_heights (firstn i t)),
                   (fold_heights (firstn (S i) t)).
           specialize (IH i A). lia.
Qed.

Lemma X18_export_stacks_canvases_witness :
  exists drawn,
    exportPNG [Some (mkCanvas 800 100); None; Some (mkCanvas 800 120);
               Some (mkCanvas 900 100)]
    = Some (800%Z, 320%Z, drawn) /\
    map fst drawn = [mkCanvas 800 100; mkCanvas 800 120; mkCanvas 900 100].
Proof.
  destruct (proj2 (X18_export_stacks_canvases
                     [Some (mkCanvas 800 100); None; Some (mkCanvas 800 120);
                      Some (mkCanvas 900 100)])
                  (mkCanvas 800 100)
                  [mkCanvas 800 120; mkCanvas 900 100] eq_refl)
    as (drawn & E & M & _).
  exists drawn. split; [ rewrite E; reflexivity | exact M ].
Defined.

Lemma X3_flag_set_iff_tick_after_deadline_witness :
  calibrated
    (cal (fst (run [mkInput 0 8000 4000 1 1; mkInput 0 16000 5000 1 1;
                    mkInput 0 16001 6000 1 1] (setup 0)))) = true.
Proof.
  apply (proj2 (X3_flag_set_iff_tick_after_deadline
                  [mkInput 0 8000 4000 1 1; mkInput 0 16000 5000 1 1;
                   mkInput 0 16001 6000 1 1] 0)).
  exists [mkInput 0 8000 4000 1 1], (mkInput 0 16000 5000 1 1),
         [mkInput 0 16001 6000 1 1].
  split; [ reflexivity | ]. split.
  - vm_compute. reflexivity.
  - vm_compute. discriminate.
Defined.
